(** * Huffman codec of [huffman.py]: a shallow embedding and its properties

    The Python module builds a Huffman code table from a frequency
    dictionary ([Node.build]), packs a byte string against such a table
    ([Node.encode]) and unpacks it again ([Node.decode]); [decode] first
    rebuilds a code tree from the table alone.

    Data is modelled as the code has it:
    - [bytes] is a list of [byte]; a dictionary key is a [bytes] value;
    - [str] is a list of characters; code words are [str] values;
    - a [dict] is an association list in insertion order with unique keys
      (the order is the iteration order of [items()] and [keys()]);
    - a [Node] has an optional value and optional children, as the class;
    - exceptions are the [Raise] results of a small error monad;
    - [decode] assigns into the dictionary it is given, so it returns the
      final state of that dictionary next to its outcome. *)

From Stdlib Require Import ZArith Ascii.
From Stdlib.Strings Require Import Byte.
From stdpp Require Import list strings sorting.
From Equations Require Import Equations.

Set Default Proof Using "Type".
Local Open Scope Z_scope.

(** ** Values, exceptions and dictionaries *)

Abbreviation bytes := (list byte).
Abbreviation str := (list ascii).

#[global] Instance byte_eq_dec : EqDecision byte := Byte.byte_eq_dec.

Inductive exn :=
| KeyError (k : bytes)
| ValueError
| IndexError
| AttributeError
| TypeError.

Inductive result (A : Type) :=
| Ok (a : A)
| Raise (e : exn).
Arguments Ok {A} a.
Arguments Raise {A} e.

Definition bind {A B} (m : result A) (k : A → result B) : result B :=
  match m with
  | Ok a => k a
  | Raise e => Raise e
  end.

Notation "'let*' x := m 'in' k" := (bind m (λ x, k))
  (at level 10, x pattern, m at level 100, k at level 200).

Definition of_option {A} (o : option A) (e : exn) : result A :=
  match o with
  | Some a => Ok a
  | None => Raise e
  end.

Definition dict (V : Type) := list (bytes * V).

Fixpoint dict_get {V} (d : dict V) (k : bytes) : option V :=
  match d with
  | [] => None
  | (k', v) :: d' => if decide (k' = k) then Some v else dict_get d' k
  end.

(** [d[k] = v]: an existing key keeps its place, a new key goes last. *)
Fixpoint dict_set {V} (d : dict V) (k : bytes) (v : V) : dict V :=
  match d with
  | [] => [(k, v)]
  | (k', v') :: d' =>
      if decide (k' = k) then (k', v) :: d' else (k', v') :: dict_set d' k v
  end.

Definition keys {V} (d : dict V) : list bytes := d.*1.

(** [d[k]], raising [KeyError] on a missing key. *)
Definition dict_item {V} (d : dict V) (k : bytes) : result V :=
  of_option (dict_get d k) (KeyError k).

(** ** Lists as Python lists *)

(** [l.pop()]: the last element and the list without it. *)
Definition pop {A} (l : list A) : result (A * list A) :=
  match last l with
  | Some x => Ok (x, removelast l)
  | None => Raise IndexError
  end.

(** [l[i]] and [l[i] = x] for a non-negative index [i]. *)
Definition list_item {A} (l : list A) (i : nat) : result A :=
  of_option (l !! i) IndexError.

Definition list_assign {A} (l : list A) (i : nat) (x : A) : result (list A) :=
  if decide (i < length l)%nat then Ok (<[i:=x]> l) else Raise IndexError.

(** [list.sort] is stable: [before y x] says that the key of [y] is
    strictly in front of the key of [x]; elements whose keys tie keep
    their order. *)
Section sort.
Context {A : Type} (before : A → A → bool).

Fixpoint insort (x : A) (l : list A) : list A :=
  match l with
  | [] => [x]
  | y :: l' => if before y x then y :: insort x l' else x :: y :: l'
  end.

Definition stable_sort (l : list A) : list A := foldr insort [] l.
End sort.

(** ** Helpers of the module *)

Definition int_to_bytes (n : byte) : bytes := [n].

Definition bytes_to_int (b : bytes) : result byte :=
  of_option (head b) IndexError.

(** [bytes([n])] for an integer [n]: only the values of [range(256)] make
    a byte. *)
Definition int_to_bytes_int (n : nat) : result bytes :=
  let* x := of_option (Byte.of_nat n) ValueError in Ok (int_to_bytes x).

(** [fre_dic[item] += 1] *)
Definition count_item (fre_dic : list Z) (item : byte) : result (list Z) :=
  let i := Byte.to_nat item in
  let* n := list_item fre_dic i in
  list_assign fre_dic i (n + 1).

(** [for item in bytes_str: fre_dic[item] += 1] *)
Fixpoint count_loop (bytes_str : bytes) (fre_dic : list Z) : result (list Z) :=
  match bytes_str with
  | [] => Ok fre_dic
  | item :: rest => let* fre_dic' := count_item fre_dic item in count_loop rest fre_dic'
  end.

(** [{int_to_bytes(x): fre_dic[x] for x in xs if fre_dic[x] != 0}], the
    entries assigned one after the other to the dictionary [d]. *)
Fixpoint fre_entries (fre_dic : list Z) (xs : list nat) (d : dict Z) : result (dict Z) :=
  match xs with
  | [] => Ok d
  | x :: rest =>
      let* n := list_item fre_dic x in
      if decide (n = 0) then fre_entries fre_dic rest d
      else
        let* k := int_to_bytes_int x in
        let* n' := list_item fre_dic x in
        fre_entries fre_dic rest (dict_set d k n')
  end.

Definition bytes_fre (bytes_str : bytes) : result (dict Z) :=
  let fre_dic := replicate 256 0 in
  let* fre_dic := count_loop bytes_str fre_dic in
  fre_entries fre_dic (seq 0 256) [].

(** ** The class [Node] *)

#[warnings="-register-all"]
Inductive Node (W : Type) :=
| mkNode (value : option bytes) (weight : W) (lchild rchild : option (Node W)).
Arguments mkNode {W} value weight lchild rchild.

Definition value {W} (n : Node W) : option bytes :=
  match n with mkNode v _ _ _ => v end.
Definition weight {W} (n : Node W) : W :=
  match n with mkNode _ w _ _ => w end.
Definition lchild {W} (n : Node W) : option (Node W) :=
  match n with mkNode _ _ l _ => l end.
Definition rchild {W} (n : Node W) : option (Node W) :=
  match n with mkNode _ _ _ r => r end.

(** [Node(value, weight, None, None)], as made of the entries of a
    dictionary by [build] and [decode]. *)
Definition leaf_node {W} (kw : bytes * W) : Node W := mkNode (Some kw.1) kw.2 None None.

(** [current.lchild is None and current.rchild is None] *)
Definition is_leaf {W} (n : Node W) : bool :=
  match lchild n, rchild n with
  | None, None => true
  | _, _ => false
  end.

(** ** [Node.build] *)

(** The recursive traversal [dlr]; the dictionary is threaded through.
    A childless node is only ever created with a value; one without a
    value would be stored under the key [None], which a [dict] of [bytes]
    keys cannot hold, and is left out. *)
Fixpoint dlr_node (current : Node Z) (huffman_code : str) (d : dict str) : dict str :=
  match current with
  | mkNode v _ None None =>
      match v with
      | Some k => dict_set d k huffman_code
      | None => d
      end
  | mkNode _ _ l r =>
      let d1 := match l with
                | Some c => dlr_node c (huffman_code ++ ["0"%char]) d
                | None => d
                end in
      match r with
      | Some c => dlr_node c (huffman_code ++ ["1"%char]) d1
      | None => d1
      end
  end.

Definition dlr (current : option (Node Z)) (huffman_code : str) (d : dict str) : dict str :=
  match current with
  | None => d
  | Some n => dlr_node n huffman_code d
  end.

(** The inner [while index and node_lst[index - 1].weight <= node_add.weight]
    loop and the final [node_lst[index] = node_add]. *)
Fixpoint adjust (index : nat) (node_add : Node Z) (node_lst : list (Node Z))
  : result (list (Node Z)) :=
  match index with
  | O => list_assign node_lst O node_add
  | S i =>
      let* prev := list_item node_lst i in
      if weight prev <=? weight node_add then
        let* node_lst' := list_assign node_lst (S i) prev in
        adjust i node_add node_lst'
      else list_assign node_lst (S i) node_add
  end.

(** One round of the merging loop of [build]. *)
Definition build_body (node_lst : list (Node Z)) : result (list (Node Z)) :=
  let* (node_2, l1) := pop node_lst in
  let* (node_1, l2) := pop l1 in
  let node_add := mkNode None (weight node_1 + weight node_2) (Some node_1) (Some node_2) in
  let l3 := l2 ++ [node_add] in
  adjust (length l3 - 1) node_add l3.

Lemma length_removelast {A} (l : list A) : length (removelast l) = (length l - 1)%nat.
Proof.
  induction l as [|x [|y l] IH]; [done..|].
  change (removelast (x :: y :: l)) with (x :: removelast (y :: l)).
  cbn [length] in *. rewrite IH. lia.
Qed.

Lemma pop_length {A} (l : list A) x l' :
  pop l = Ok (x, l') → length l = S (length l').
Proof.
  unfold pop. destruct (last l) eqn:E; [|done]. intros [= <- <-].
  rewrite length_removelast. destruct l; [done|]. cbn [length]. lia.
Qed.

Lemma list_assign_length {A} (l : list A) i x l' :
  list_assign l i x = Ok l' → length l' = length l.
Proof.
  unfold list_assign. case_decide; [|done]. intros [= <-]. apply length_insert.
Qed.

Lemma adjust_length index x l l' :
  adjust index x l = Ok l' → length l' = length l.
Proof.
  revert l. induction index as [|i IH]; intros l; cbn [adjust].
  { apply list_assign_length. }
  destruct (list_item l i) as [prev|]; [|done]. cbn [bind].
  destruct (weight prev <=? weight x).
  - destruct (list_assign l (S i) prev) as [l1|] eqn:E; [|done]. cbn [bind].
    intros H. rewrite (IH _ H). by eapply list_assign_length.
  - apply list_assign_length.
Qed.

Lemma build_body_length l l' :
  build_body l = Ok l' → length l = S (length l').
Proof.
  unfold build_body.
  destruct (pop l) as [[n2 l1]|] eqn:E1; [|done]. cbn [bind].
  destruct (pop l1) as [[n1 l2]|] eqn:E2; [|done]. cbn [bind].
  intros H. apply adjust_length in H.
  apply pop_length in E1, E2. rewrite H, E1, E2, length_app. cbn [length]. lia.
Qed.

(** Remembers the equation of a scrutinee, for the termination proofs. *)
Definition inspect {A} (a : A) : {b | a = b} := exist _ a eq_refl.

(** [while len(node_lst) > 1: ...] *)
Equations? build_loop (node_lst : list (Node Z)) : result (list (Node Z))
  by wf (length node_lst) lt :=
build_loop node_lst with decide (1 < length node_lst)%nat := {
  | right _ => Ok node_lst
  | left _ with inspect (build_body node_lst) := {
      | exist _ (Ok l') H => build_loop l'
      | exist _ (Raise e) _ => Raise e } }.
Proof. apply build_body_length in H. lia. Qed.

(** [node_lst.sort(key=lambda item: item.weight, reverse=True)]: heavier
    nodes first, ties in their original order. *)
Definition sort_by_weight (l : list (Node Z)) : list (Node Z) :=
  stable_sort (λ y x, weight x <? weight y) l.

Definition build (fre_dic : dict Z) : result (dict str) :=
  if decide (length fre_dic = 0%nat) then Ok []
  else if decide (length fre_dic = 1%nat) then
    Ok ((λ k, (k, ["0"%char])) <$> keys fre_dic)
  else
    let node_lst := leaf_node <$> fre_dic in
    let node_lst := sort_by_weight node_lst in
    let* node_lst := build_loop node_lst in
    let huffman_dic := (λ k, (k, [])) <$> keys fre_dic in
    let* root := list_item node_lst 0 in
    Ok (dlr (Some root) [] huffman_dic).

(** ** [Node.encode] *)

(** [int(s, 2)] on a string of binary digits.  Any other character, and
    the empty string, is answered with [ValueError]; Python also accepts a
    sign, a [0b] prefix, underscores and surrounding blanks, which the
    strings met here (words over [0] and [1], and the word [OVO]) never
    have. *)
Fixpoint int2_from (acc : N) (s : str) : result N :=
  match s with
  | [] => Ok acc
  | c :: s' =>
      if decide (c = "0"%char) then int2_from (2 * acc)%N s'
      else if decide (c = "1"%char) then int2_from (2 * acc + 1)%N s'
      else Raise ValueError
  end.

Definition int2 (s : str) : result N :=
  match s with
  | [] => Raise ValueError
  | _ => int2_from 0%N s
  end.

(** [write_buffer.append(int(s, 2))]; a [bytearray] only takes values in
    [range(256)]. *)
Definition append_int (s : str) (write_buffer : bytes) : result bytes :=
  let* n := int2 s in
  let* b := of_option (Byte.of_N n) ValueError in
  Ok (write_buffer ++ [b]).

(** [while len(bin_buffer) >= 8: ...] *)
Equations? flush (bin_buffer : str) (write_buffer : bytes) : result (str * bytes)
  by wf (length bin_buffer) lt :=
flush bin_buffer write_buffer with decide (8 ≤ length bin_buffer)%nat := {
  | right _ => Ok (bin_buffer, write_buffer)
  | left _ with append_int (take 8 bin_buffer) write_buffer := {
      | Ok write_buffer' => flush (drop 8 bin_buffer) write_buffer'
      | Raise e => Raise e } }.
Proof. rewrite length_drop. lia. Qed.

(** [for item in read_buffer: ...] *)
Fixpoint encode_loop (read_buffer : list bytes) (huffman_dic : dict str)
    (bin_buffer : str) (write_buffer : bytes) : result (str * bytes) :=
  match read_buffer with
  | [] => Ok (bin_buffer, write_buffer)
  | item :: rest =>
      let* code := dict_item huffman_dic item in
      let* (bin_buffer', write_buffer') := flush (bin_buffer ++ code) write_buffer in
      encode_loop rest huffman_dic bin_buffer' write_buffer'
  end.

(** [s.ljust(8, '0')] *)
Definition ljust8 (s : str) : str := s ++ replicate (8 - length s) "0"%char.

(** [dic[item]] is [int_to_bytes(item)] for every byte, so [read_buffer]
    is the list of the one-byte strings of [str_bytes]. *)
Definition encode (str_bytes : bytes) (huffman_dic : dict str) : result (bytes * Z) :=
  let read_buffer := int_to_bytes <$> str_bytes in
  let* (bin_buffer, write_buffer) := encode_loop read_buffer huffman_dic [] [] in
  match bin_buffer with
  | [] => Ok (write_buffer, 0)
  | _ =>
      let padding := 8 - Z.of_nat (length bin_buffer) in
      let* write_buffer := append_int (ljust8 bin_buffer) write_buffer in
      Ok (write_buffer, padding)
  end.

(** ** [Node.decode] *)

(** Comparison of Python strings: by code point, a proper prefix first. *)
Fixpoint str_ltb (a b : str) : bool :=
  match a, b with
  | _, [] => false
  | [], _ :: _ => true
  | x :: a', y :: b' =>
      if (N_of_ascii x <? N_of_ascii y)%N then true
      else if (N_of_ascii x =? N_of_ascii y)%N then str_ltb a' b'
      else false
  end.

(** [(len(a), a) < (len(b), b)] *)
Definition key_ltb (a b : str) : bool :=
  if (length a <? length b)%nat then true
  else if (length a =? length b)%nat then str_ltb a b
  else false.

(** [node_lst.sort(key=lambda _item: (len(_item.weight), _item.weight))] *)
Definition sort_by_code (l : list (Node str)) : list (Node str) :=
  stable_sort (λ y x, key_ltb (weight y) (weight x)) l.

(** [w[:-1:]] *)
Definition drop_last (w : str) : str := take (length w - 1) w.

Definition decode_body (node_lst : list (Node str)) : result (list (Node str)) :=
  let* (node_2, l1) := pop node_lst in
  let* (node_1, l2) := pop l1 in
  let node_add := mkNode None (drop_last (weight node_1)) (Some node_1) (Some node_2) in
  Ok (sort_by_code (l2 ++ [node_add])).

Lemma length_insort {A} (before : A → A → bool) x l :
  length (insort before x l) = S (length l).
Proof. induction l as [|y l IH]; [done|]. simpl. destruct (before y x); simpl; lia. Qed.

Lemma length_stable_sort {A} (before : A → A → bool) l :
  length (stable_sort before l) = length l.
Proof. induction l as [|x l IH]; [done|]. simpl. rewrite length_insort. lia. Qed.

Lemma decode_body_length l l' :
  decode_body l = Ok l' → length l = S (length l').
Proof.
  unfold decode_body.
  destruct (pop l) as [[n2 l1]|] eqn:E1; [|done]. cbn [bind].
  destruct (pop l1) as [[n1 l2]|] eqn:E2; [|done]. cbn [bind].
  intros [= <-]. apply pop_length in E1, E2.
  unfold sort_by_code. rewrite length_stable_sort, E1, E2, length_app. cbn [length]. lia.
Qed.

Equations? decode_loop (node_lst : list (Node str)) : result (list (Node str))
  by wf (length node_lst) lt :=
decode_loop node_lst with decide (1 < length node_lst)%nat := {
  | right _ => Ok node_lst
  | left _ with inspect (decode_body node_lst) := {
      | exist _ (Ok l') H => decode_loop l'
      | exist _ (Raise e) _ => Raise e } }.
Proof. apply decode_body_length in H. lia. Qed.

(** [bin(n)[2::]] *)
Fixpoint bin_pos (p : positive) : str :=
  match p with
  | xH => ["1"%char]
  | xO p' => bin_pos p' ++ ["0"%char]
  | xI p' => bin_pos p' ++ ["1"%char]
  end.

Definition bin (n : N) : str :=
  match n with
  | N0 => ["0"%char]
  | Npos p => bin_pos p
  end.

(** [s.rjust(8, '0')] *)
Definition rjust8 (s : str) : str := replicate (8 - length s) "0"%char ++ s.

(** [dic[item]]: the eight binary digits of a byte, high bit first.  The
    digits are only ever tested for truth, so they are kept as [bool]. *)
Definition byte_bits (item : byte) : list bool :=
  (λ c, bool_decide (c = "1"%char)) <$> rjust8 (bin (Byte.to_N item)).

(** [l[0:stop:]] for any integer [stop] (a negative one counts from the end). *)
Definition slice_to {A} (l : list A) (stop : Z) : list A :=
  let len := Z.of_nat (length l) in
  let stop := if stop <? 0 then Z.max 0 (stop + len) else Z.min stop len in
  take (Z.to_nat stop) l.

(** [l[pos:pos + 8]] for [pos >= 0] *)
Definition slice8 {A} (l : list A) (pos : nat) : list A := take 8 (drop pos l).

(** [range(0, n, 8)] *)
Definition range8 (n : Z) : list nat :=
  (λ i, 8 * i)%nat <$> seq 0 (Z.to_nat ((n + 7) / 8)).

(** One pass of the innermost loop body. *)
Definition walk_bit (root : Node str) (st : Node str * bytes) (item : bool)
  : result (Node str * bytes) :=
  let '(current, write_buffer) := st in
  let* current := of_option (if item then rchild current else lchild current)
                            AttributeError in
  if is_leaf current then
    let* v := of_option (value current) TypeError in
    Ok (root, write_buffer ++ v)
  else Ok (current, write_buffer).

Fixpoint walk_bits (root : Node str) (st : Node str * bytes) (items : list bool)
  : result (Node str * bytes) :=
  match items with
  | [] => Ok st
  | item :: rest => let* st' := walk_bit root st item in walk_bits root st' rest
  end.

(** [for pos in range(0, buffer_size, 8): for item in read_buffer[pos:pos + 8]: ...] *)
Fixpoint walk_chunks (root : Node str) (read_buffer : list bool) (st : Node str * bytes)
    (poss : list nat) : result (Node str * bytes) :=
  match poss with
  | [] => Ok st
  | pos :: rest =>
      let* st' := walk_bits root st (slice8 read_buffer pos) in
      walk_chunks root read_buffer st' rest
  end.

(** The placeholder entry [b'OVO'] / ['OVO']. *)
Definition OVO_key : bytes := ["O"%byte; "V"%byte; "O"%byte].
Definition OVO_code : str := ["O"%char; "V"%char; "O"%char].

(** The dictionary as [decode] leaves it: the second branch of the first
    [if] assigns to the argument itself. *)
Definition decode_dict (huffman_dic : dict str) : dict str :=
  if decide (length huffman_dic = 1%nat) then dict_set huffman_dic OVO_key OVO_code
  else huffman_dic.

(** The tree part of [decode]: the forest of the table, sorted, the
    merging loop, and the root [node_lst[0]] the walk starts from. *)
Definition rebuild (huffman_dic : dict str) : result (Node str) :=
  let node_lst := leaf_node <$> huffman_dic in
  let node_lst := sort_by_code node_lst in
  let* node_lst := decode_loop node_lst in
  list_item node_lst 0.

Definition decode (str_bytes : bytes) (huffman_dic : dict str) (padding : Z)
  : dict str * result bytes :=
  if decide (length huffman_dic = 0%nat) then (huffman_dic, Ok [])
  else
    let huffman_dic := decode_dict huffman_dic in
    (huffman_dic,
     let* current := rebuild huffman_dic in
     let read_buffer := mjoin (byte_bits <$> str_bytes) in
     let buffer_size := 8 * Z.of_nat (length str_bytes) in
     let read_buffer := slice_to read_buffer (buffer_size - padding) in
     let buffer_size := buffer_size - padding in
     let* (_, write_buffer) :=
       walk_chunks current read_buffer (current, []) (range8 buffer_size) in
     Ok write_buffer).

(** ** The scenarios of the specification, run on the model *)

(** The byte of a number below 256, and a Python string literal. *)
Definition byte_of (n : N) : byte := default "000"%byte (Byte.of_N n).
Definition str_of (x : string) : str := String.list_ascii_of_string x.

Example build_OV :
  build [([byte_of 0x4F], 2); ([byte_of 0x56], 1)]
  = Ok [([byte_of 0x4F], str_of "0"); ([byte_of 0x56], str_of "1")].
Proof. vm_compute. reflexivity. Qed.

Example encode_OVO :
  encode [byte_of 0x4F; byte_of 0x56; byte_of 0x4F] [([byte_of 0x4F], str_of "0"); ([byte_of 0x56], str_of "1")]
  = Ok ([byte_of 0x40], 5).
Proof. vm_compute. reflexivity. Qed.

Example decode_OVO :
  decode [byte_of 0x40] [([byte_of 0x4F], str_of "0"); ([byte_of 0x56], str_of "1")] 5
  = ([([byte_of 0x4F], str_of "0"); ([byte_of 0x56], str_of "1")], Ok [byte_of 0x4F; byte_of 0x56; byte_of 0x4F]).
Proof. vm_compute. reflexivity. Qed.

Example encode_AAAAA :
  encode (replicate 5 (byte_of 0x41)) [([byte_of 0x41], str_of "0")] = Ok ([byte_of 0], 3).
Proof. vm_compute. reflexivity. Qed.

(** ** Basic facts about the list primitives *)

Lemma pop_app {A} (l : list A) x : pop (l ++ [x]) = Ok (x, l).
Proof. unfold pop. by rewrite last_snoc, removelast_last. Qed.

Lemma pop_long {A} (l : list A) :
  (2 ≤ length l)%nat → ∃ l' x y, l = l' ++ [x; y].
Proof.
  intros Hl. destruct l as [|z l] using rev_ind; [simpl in Hl; lia|].
  destruct l as [|y l _] using rev_ind.
  { rewrite length_app in Hl. simpl in Hl. lia. }
  exists l, y, z. by rewrite <-app_assoc.
Qed.

Lemma insort_perm {A} (before : A → A → bool) x l : insort before x l ≡ₚ x :: l.
Proof.
  induction l as [|y l IH]; [done|]. simpl. destruct (before y x); [|done].
  rewrite IH. apply Permutation_swap.
Qed.

Lemma stable_sort_perm {A} (before : A → A → bool) l : stable_sort before l ≡ₚ l.
Proof.
  induction l as [|x l IH]; [done|]. simpl. by rewrite insort_perm, IH.
Qed.

Lemma build_loop_eq l :
  build_loop l =
    if decide (1 < length l)%nat then let* l' := build_body l in build_loop l'
    else Ok l.
Proof.
  rewrite build_loop_equation_1. unfold build_loop_unfold_clause_1.
  destruct (decide _); [|done]. cbn.
  unfold inspect. by destruct (build_body l).
Qed.

Lemma decode_loop_eq l :
  decode_loop l =
    if decide (1 < length l)%nat then let* l' := decode_body l in decode_loop l'
    else Ok l.
Proof.
  rewrite decode_loop_equation_1. unfold decode_loop_unfold_clause_1.
  destruct (decide _); [|done]. cbn.
  unfold inspect. by destruct (decode_body l).
Qed.

Lemma flush_eq bin_buffer write_buffer :
  flush bin_buffer write_buffer =
    if decide (8 ≤ length bin_buffer)%nat then
      let* write_buffer' := append_int (take 8 bin_buffer) write_buffer in
      flush (drop 8 bin_buffer) write_buffer'
    else Ok (bin_buffer, write_buffer).
Proof.
  rewrite flush_equation_1. unfold flush_unfold_clause_1.
  destruct (decide _); [|done]. cbn.
  by destruct (append_int (take 8 bin_buffer) write_buffer).
Qed.

(** ** Bits, code words and packed bytes *)

Definition is_bit (c : ascii) : Prop := c = "0"%char ∨ c = "1"%char.

(** A code word made of the digits [0] and [1] only. *)
Definition bit_str (w : str) : Prop := Forall is_bit w.

(** A table all of whose code words are such words. *)
Definition bit_table (d : dict str) : Prop := Forall (λ kv, bit_str kv.2) d.

Definition bits_of (w : str) : list bool := (λ c, bool_decide (c = "1"%char)) <$> w.

(** The bit sequence of a byte string, high bit of each byte first. *)
Definition unpack (packed : bytes) : list bool := mjoin (byte_bits <$> packed).

(** The code word of a data byte ([huffman_dic[dic[item]]]). *)
Definition code_of (huffman_dic : dict str) (item : byte) : str :=
  default [] (dict_get huffman_dic (int_to_bytes item)).

(** The concatenation of the code words of a byte string. *)
Definition stream (huffman_dic : dict str) (data : bytes) : str :=
  mjoin (code_of huffman_dic <$> data).

(** All bytes of [data] are keys of the table. *)
Definition covered (huffman_dic : dict str) (data : bytes) : Prop :=
  Forall (λ item, is_Some (dict_get huffman_dic (int_to_bytes item))) data.

Lemma length_byte_bits item : length (byte_bits item) = 8%nat.
Proof. by destruct item. Qed.

Lemma unpack_cons x packed : unpack (x :: packed) = byte_bits x ++ unpack packed.
Proof. done. Qed.

Lemma length_unpack packed : length (unpack packed) = (8 * length packed)%nat.
Proof.
  induction packed as [|x l IH]; [done|].
  rewrite unpack_cons, length_app, length_byte_bits, IH. cbn [length]. lia.
Qed.

Lemma unpack_app p1 p2 : unpack (p1 ++ p2) = unpack p1 ++ unpack p2.
Proof. unfold unpack. by rewrite fmap_app, join_app. Qed.

Lemma unpack_singleton x : unpack [x] = byte_bits x.
Proof. unfold unpack. cbn. by rewrite app_nil_r. Qed.

Lemma bits_of_app w1 w2 : bits_of (w1 ++ w2) = bits_of w1 ++ bits_of w2.
Proof. apply fmap_app. Qed.

Lemma length_bits_of w : length (bits_of w) = length w.
Proof. apply length_fmap. Qed.

Lemma append_int_bits w write_buffer :
  bit_str w → length w = 8%nat →
  ∃ x, append_int w write_buffer = Ok (write_buffer ++ [x]) ∧ byte_bits x = bits_of w.
Proof.
  intros Hw Hlen.
  do 8 (destruct w as [|? w]; [by simplify_eq/=|]).
  destruct w; [|by simplify_eq/=]. clear Hlen. unfold bit_str in Hw.
  repeat match goal with
         | H : Forall is_bit (_ :: _) |- _ => apply Forall_cons in H as [[-> | ->] H]
         end;
    (eexists; split; [by cbv|by cbv]).
Qed.

Lemma bit_str_app w1 w2 : bit_str (w1 ++ w2) ↔ bit_str w1 ∧ bit_str w2.
Proof. apply Forall_app. Qed.

Lemma flush_spec bin_buffer write_buffer :
  bit_str bin_buffer →
  ∃ bin_buffer' write_buffer',
    flush bin_buffer write_buffer = Ok (bin_buffer', write_buffer') ∧
    (length bin_buffer' < 8)%nat ∧ bit_str bin_buffer' ∧
    unpack write_buffer' ++ bits_of bin_buffer'
    = unpack write_buffer ++ bits_of bin_buffer.
Proof.
  remember (length bin_buffer) as n eqn:Hn.
  revert bin_buffer write_buffer Hn.
  induction (lt_wf n) as [n _ IH]; intros bb wb -> Hbits.
  rewrite flush_eq. destruct (decide (8 ≤ length bb)%nat) as [Hge|Hlt].
  - rewrite <-(take_drop 8 bb) in Hbits. apply bit_str_app in Hbits as [H1 H2].
    destruct (append_int_bits (take 8 bb) wb H1) as (x & -> & Hx).
    { rewrite length_take. lia. }
    cbn [bind].
    destruct (IH (length (drop 8 bb))) with (bin_buffer := drop 8 bb)
      (write_buffer := wb ++ [x]) as (bb' & wb' & -> & ? & ? & Heq); [|done..|].
    { rewrite length_drop. lia. }
    exists bb', wb'. split_and!; [done..|].
    rewrite Heq, unpack_app, unpack_singleton, Hx, <-app_assoc, <-bits_of_app.
    by rewrite take_drop.
  - exists bb, wb. split_and!; [done|lia|done..].
Qed.

Lemma dict_get_elem_of {V} (d : dict V) k v : dict_get d k = Some v → (k, v) ∈ d.
Proof.
  induction d as [|[k' v'] d IH]; [done|]. simpl. case_decide as Hk.
  - intros [= ->]. subst. left.
  - intros. right. auto.
Qed.

Lemma bit_table_get d k w : bit_table d → dict_get d k = Some w → bit_str w.
Proof.
  intros Hd Hk. apply dict_get_elem_of in Hk.
  unfold bit_table in Hd. rewrite Forall_forall in Hd. apply (Hd _ Hk).
Qed.

Lemma encode_loop_spec huffman_dic data bin_buffer write_buffer :
  bit_table huffman_dic → covered huffman_dic data →
  bit_str bin_buffer → (length bin_buffer < 8)%nat →
  ∃ bin_buffer' write_buffer',
    encode_loop (int_to_bytes <$> data) huffman_dic bin_buffer write_buffer
    = Ok (bin_buffer', write_buffer') ∧
    (length bin_buffer' < 8)%nat ∧ bit_str bin_buffer' ∧
    unpack write_buffer' ++ bits_of bin_buffer'
    = unpack write_buffer ++ bits_of bin_buffer ++ bits_of (stream huffman_dic data).
Proof.
  intros Ht Hcov. revert bin_buffer write_buffer.
  induction Hcov as [|item data [w Hw] _ IH]; intros bb wb Hbb Hlen.
  { exists bb, wb. split_and!; [done..|]. by rewrite !app_nil_r. }
  cbn [fmap list_fmap encode_loop]. unfold dict_item. rewrite Hw. cbn [of_option bind].
  destruct (flush_spec (bb ++ w) wb) as (bb1 & wb1 & -> & Hlen1 & Hbb1 & Heq1).
  { apply bit_str_app. eauto using bit_table_get. }
  cbn [bind]. destruct (IH bb1 wb1 Hbb1 Hlen1) as (bb2 & wb2 & Hrun & ? & ? & Heq2).
  exists bb2, wb2. split_and!; [done..|].
  rewrite Heq2, app_assoc, Heq1, bits_of_app, <-!app_assoc. do 2 f_equal.
  unfold stream. cbn [fmap list_fmap mjoin list_join]. rewrite bits_of_app.
  f_equal. unfold code_of. by rewrite Hw.
Qed.

Lemma encode_spec huffman_dic data :
  bit_table huffman_dic → covered huffman_dic data →
  ∃ packed padding,
    encode data huffman_dic = Ok (packed, padding) ∧ 0 ≤ padding ≤ 7 ∧
    unpack packed
    = bits_of (stream huffman_dic data) ++ replicate (Z.to_nat padding) false.
Proof.
  intros Ht Hcov. unfold encode.
  destruct (encode_loop_spec huffman_dic data [] [] Ht Hcov)
    as (bb & wb & -> & Hlen & Hbb & Heq); [constructor|simpl; lia|].
  cbn [bind]. simpl in Heq. destruct bb as [|c bb].
  { exists wb, 0. split_and!; [done|lia..|]. rewrite <-Heq. by rewrite !app_nil_r. }
  set (bb' := c :: bb) in *.
  destruct (append_int_bits (ljust8 bb') wb) as (x & -> & Hx).
  { apply bit_str_app. split; [done|]. apply Forall_replicate. by left. }
  { unfold ljust8. rewrite length_app, length_replicate. lia. }
  assert (1 ≤ length bb')%nat by (subst bb'; simpl; lia).
  cbn [bind]. eexists _, _. split_and!; [done|lia|lia|].
  rewrite unpack_app, unpack_singleton, Hx. unfold ljust8.
  rewrite bits_of_app, app_assoc, Heq. f_equal.
  unfold bits_of. rewrite fmap_replicate. f_equal. lia.
Qed.

Lemma encode_loop_missing huffman_dic pre x post bin_buffer write_buffer :
  bit_table huffman_dic → covered huffman_dic pre →
  dict_get huffman_dic (int_to_bytes x) = None →
  bit_str bin_buffer →
  encode_loop (int_to_bytes <$> pre ++ x :: post) huffman_dic bin_buffer write_buffer
  = Raise (KeyError (int_to_bytes x)).
Proof.
  intros Ht Hcov Hx. revert bin_buffer write_buffer.
  induction Hcov as [|item data [w Hw] _ IH]; intros bb wb Hbb.
  { cbn [app fmap list_fmap encode_loop]. unfold dict_item. by rewrite Hx. }
  cbn [app fmap list_fmap encode_loop]. unfold dict_item. rewrite Hw.
  cbn [of_option bind].
  destruct (flush_spec (bb ++ w) wb) as (bb1 & wb1 & -> & Hlen1 & Hbb1 & Heq1).
  { apply bit_str_app. eauto using bit_table_get. }
  cbn [bind]. by apply IH.
Qed.

Lemma first_missing huffman_dic data :
  ¬ covered huffman_dic data →
  ∃ pre x post, data = pre ++ x :: post ∧ covered huffman_dic pre ∧
    dict_get huffman_dic (int_to_bytes x) = None.
Proof.
  induction data as [|item data IH]; intros Hn.
  { destruct Hn. constructor. }
  destruct (dict_get huffman_dic (int_to_bytes item)) as [w|] eqn:Hw.
  - destruct IH as (pre & x & post & -> & Hpre & Hx).
    { intros Hc. apply Hn. constructor; [by rewrite Hw|done]. }
    exists (item :: pre), x, post. split_and!; [done| |done].
    constructor; [by rewrite Hw|done].
  - exists [], item, data. split_and!; [done|constructor|done].
Qed.

(** ** The stable sort *)

Section sort_facts.
Context {A : Type} (before : A → A → bool).

(** [x] may stand in front of [y]. *)
Definition may_precede (x y : A) : Prop := before y x = false.

Hypothesis before_asym : ∀ x y, before x y = true → before y x = false.
Hypothesis precede_trans : ∀ x y z,
  may_precede x y → may_precede y z → may_precede x z.

Lemma insort_sorted x l :
  StronglySorted may_precede l → StronglySorted may_precede (insort before x l).
Proof using before_asym precede_trans.
  induction 1 as [|y l Hl IH Hy]; simpl.
  { repeat constructor. }
  destruct (before y x) eqn:Hyx.
  - constructor; [done|]. rewrite insort_perm. constructor; [|done].
    by apply before_asym.
  - constructor; [by constructor|]. constructor; [done|].
    eapply Forall_impl; [exact Hy|]. intros z Hz. by eapply precede_trans.
Qed.

Lemma stable_sort_sorted l : StronglySorted may_precede (stable_sort before l).
Proof using before_asym precede_trans.
  induction l as [|x l IH]; simpl; [constructor|]. by apply insort_sorted.
Qed.

(** Two lists with the same elements, none of which tie, are sorted to
    the same list. *)
Lemma stable_sort_unique l l' :
  (∀ x y, x ∈ l → y ∈ l → may_precede x y → may_precede y x → x = y) →
  l ≡ₚ l' → stable_sort before l = stable_sort before l'.
Proof using before_asym precede_trans.
  intros Htie Hperm. apply (StronglySorted_unique_strong may_precede).
  - intros x y Hx Hy. rewrite stable_sort_perm in Hx, Hy.
    rewrite <-Hperm in Hy. by apply Htie.
  - apply stable_sort_sorted.
  - apply stable_sort_sorted.
  - by rewrite !stable_sort_perm.
Qed.

Lemma stable_sort_sorted_id l l' :
  (∀ x y, x ∈ l → y ∈ l → may_precede x y → may_precede y x → x = y) →
  StronglySorted may_precede l' → l ≡ₚ l' → stable_sort before l = l'.
Proof using before_asym precede_trans.
  intros Htie Hsorted Hperm. apply (StronglySorted_unique_strong may_precede).
  - intros x y Hx Hy. rewrite stable_sort_perm in Hx.
    rewrite <-Hperm in Hy. by apply Htie.
  - apply stable_sort_sorted.
  - done.
  - by rewrite stable_sort_perm.
Qed.
End sort_facts.

(** ** The order of the code words *)

Lemma N_of_ascii_inj x y : N_of_ascii x = N_of_ascii y → x = y.
Proof.
  intros H. rewrite <-(ascii_N_embedding x), <-(ascii_N_embedding y). by rewrite H.
Qed.

Lemma str_ltb_irrefl a : str_ltb a a = false.
Proof. induction a as [|x a IH]; [done|]. simpl. by rewrite N.ltb_irrefl, N.eqb_refl. Qed.

Lemma str_ltb_trans a c d : str_ltb a c = true → str_ltb c d = true → str_ltb a d = true.
Proof.
  revert c d. induction a as [|x a IH]; intros [|y c] [|z d]; simpl; try done.
  destruct (N.ltb_spec (N_of_ascii x) (N_of_ascii y)),
    (N.eqb_spec (N_of_ascii x) (N_of_ascii y)),
    (N.ltb_spec (N_of_ascii y) (N_of_ascii z)),
    (N.eqb_spec (N_of_ascii y) (N_of_ascii z)),
    (N.ltb_spec (N_of_ascii x) (N_of_ascii z)),
    (N.eqb_spec (N_of_ascii x) (N_of_ascii z)); try done; try lia.
  apply IH.
Qed.

Lemma str_ltb_tri a c : str_ltb a c = false → str_ltb c a = false → a = c.
Proof.
  revert c. induction a as [|x a IH]; intros [|y c]; simpl; try done.
  destruct (N.ltb_spec (N_of_ascii x) (N_of_ascii y)),
    (N.eqb_spec (N_of_ascii x) (N_of_ascii y)),
    (N.ltb_spec (N_of_ascii y) (N_of_ascii x)),
    (N.eqb_spec (N_of_ascii y) (N_of_ascii x)); try done; try lia.
  intros. f_equal; [by apply N_of_ascii_inj|by apply IH].
Qed.

Lemma key_ltb_irrefl a : key_ltb a a = false.
Proof.
  unfold key_ltb. by rewrite Nat.ltb_irrefl, Nat.eqb_refl, str_ltb_irrefl.
Qed.

Lemma key_ltb_trans a c d : key_ltb a c = true → key_ltb c d = true → key_ltb a d = true.
Proof.
  unfold key_ltb.
  destruct (Nat.ltb_spec (length a) (length c)), (Nat.eqb_spec (length a) (length c)),
    (Nat.ltb_spec (length c) (length d)), (Nat.eqb_spec (length c) (length d)),
    (Nat.ltb_spec (length a) (length d)), (Nat.eqb_spec (length a) (length d));
    try done; try lia.
  apply str_ltb_trans.
Qed.

Lemma key_ltb_tri a c : key_ltb a c = false → key_ltb c a = false → a = c.
Proof.
  unfold key_ltb.
  destruct (Nat.ltb_spec (length a) (length c)), (Nat.eqb_spec (length a) (length c)),
    (Nat.ltb_spec (length c) (length a)), (Nat.eqb_spec (length c) (length a));
    try done; try lia.
  apply str_ltb_tri.
Qed.

Lemma key_ltb_asym a c : key_ltb a c = true → key_ltb c a = false.
Proof.
  intros H. destruct (key_ltb c a) eqn:E; [|done].
  by rewrite <-(key_ltb_irrefl a), (key_ltb_trans a c a).
Qed.

Lemma key_leb_trans a c d :
  key_ltb c a = false → key_ltb d c = false → key_ltb d a = false.
Proof.
  intros H1 H2. destruct (key_ltb d a) eqn:E; [|done].
  destruct (key_ltb a c) eqn:E1.
  - by rewrite (key_ltb_trans d a c) in H2.
  - assert (a = c) as -> by by apply key_ltb_tri. congruence.
Qed.

Lemma key_ltb_shorter a c : (length a < length c)%nat → key_ltb a c = true.
Proof. unfold key_ltb. intros. by destruct (Nat.ltb_spec (length a) (length c)); [|lia]. Qed.

Lemma str_ltb_app p a c : str_ltb (p ++ a) (p ++ c) = str_ltb a c.
Proof. induction p as [|x p IH]; [done|]. simpl. by rewrite N.ltb_irrefl, N.eqb_refl. Qed.

(** Two words of the same length that part ways with a [0] and a [1]. *)
Lemma key_ltb_fork p u v :
  length u = length v →
  key_ltb (p ++ "0"%char :: u) (p ++ "1"%char :: v) = true.
Proof.
  intros Hlen. unfold key_ltb. rewrite !length_app. cbn [length]. rewrite Hlen.
  rewrite Nat.ltb_irrefl, Nat.eqb_refl. by rewrite str_ltb_app.
Qed.

(** ** Full binary trees *)

(** Every node is a leaf carrying a value or has both children. *)
Inductive full {W} : Node W → Prop :=
| full_leaf k w : full (mkNode (Some k) w None None)
| full_inner v w l r : full l → full r → full (mkNode v w (Some l) (Some r)).

(** The node a round of [decode] makes of the two popped nodes. *)
Definition code_parent (node_1 node_2 : Node str) : Node str :=
  mkNode None (drop_last (weight node_1)) (Some node_1) (Some node_2).

Lemma decode_body_app l x y :
  decode_body (l ++ [x; y]) = Ok (sort_by_code (l ++ [code_parent x y])).
Proof.
  unfold decode_body.
  replace (l ++ [x; y]) with ((l ++ [x]) ++ [y]) by by rewrite <-app_assoc.
  rewrite pop_app. cbn [bind]. by rewrite pop_app.
Qed.

Lemma sort_by_code_perm l : sort_by_code l ≡ₚ l.
Proof. apply stable_sort_perm. Qed.

Lemma decode_loop_full l :
  l ≠ [] → Forall full l →
  ∃ root, decode_loop l = Ok [root] ∧ full root ∧
    ((1 < length l)%nat → is_leaf root = false).
Proof.
  remember (length l) as n eqn:Hn. revert l Hn.
  induction (lt_wf n) as [n _ IH]; intros l -> Hne Hfull.
  rewrite decode_loop_eq. destruct (decide (1 < length l)%nat) as [Hlen|Hlen].
  - destruct (pop_long l) as (l' & x & y & ->); [lia|].
    rewrite decode_body_app. cbn [bind].
    set (l1 := sort_by_code (l' ++ [code_parent x y])).
    assert (Hperm : l1 ≡ₚ l' ++ [code_parent x y]) by apply sort_by_code_perm.
    apply Forall_app in Hfull as [Hl' Hxy].
    apply Forall_cons in Hxy as [Hx Hy]. apply Forall_cons in Hy as [Hy _].
    assert (Hlen1 : length l1 = S (length l')).
    { rewrite Hperm, length_app. simpl. lia. }
    destruct (IH (length l1)) with (l := l1) as (root & Hrun & Hroot & Hin); [|done| | |].
    { rewrite Hlen1, length_app. simpl. lia. }
    { intros E. by rewrite E in Hlen1. }
    { rewrite Hperm. apply Forall_app. split; [done|].
      repeat constructor; done. }
    exists root. split_and!; [done..|]. intros _.
    destruct l' as [|z l'].
    + subst l1. cbn in Hrun. rewrite decode_loop_eq in Hrun. cbn in Hrun.
      by injection Hrun as <-.
    + apply Hin. rewrite Hlen1. simpl. lia.
  - destruct l as [|x [|y l]]; [done| |simpl in Hlen; lia].
    apply Forall_cons in Hfull as [Hx _]. exists x. split_and!; [done..|simpl; lia].
Qed.

Lemma rebuild_full huffman_dic :
  huffman_dic ≠ [] →
  ∃ root, rebuild huffman_dic = Ok root ∧ full root ∧
    ((1 < length huffman_dic)%nat → is_leaf root = false).
Proof.
  intros Hne. unfold rebuild.
  set (l := sort_by_code _).
  assert (Hperm : l ≡ₚ leaf_node <$> huffman_dic) by apply sort_by_code_perm.
  destruct (decode_loop_full l) as (root & -> & Hroot & Hin).
  - intros E. rewrite E in Hperm. apply Permutation_nil in Hperm.
    by apply fmap_nil_inv in Hperm.
  - rewrite Hperm. apply Forall_fmap, Forall_true. intros [k w]. constructor.
  - exists root. split_and!; [done..|]. intros H. apply Hin.
    by rewrite Hperm, length_fmap.
Qed.

(** The walk never leaves a full tree whose root has children. *)
Definition walking (st : Node str * bytes) : Prop := full st.1 ∧ is_leaf st.1 = false.

Lemma walk_bit_total root st item :
  walking (root, []) → walking st →
  ∃ st', walk_bit root st item = Ok st' ∧ walking st'.
Proof.
  intros [Hroot Hin] [Hcur Hnot]. destruct st as [cur wb]. simpl in *.
  destruct Hcur as [|v w l r Hl Hr]; [done|].
  unfold walk_bit.
  assert (∀ c, full c → ∃ st',
    (if is_leaf c then let* v := of_option (value c) TypeError in Ok (root, wb ++ v)
     else Ok (c, wb)) = Ok st' ∧ walking st') as Hstep.
  { intros c Hc. destruct (is_leaf c) eqn:Hleaf.
    - destruct Hc; [|done]. simpl. by eexists.
    - by eexists. }
  destruct item; simpl; by apply Hstep.
Qed.

Lemma walk_bits_total root st items :
  walking (root, []) → walking st →
  ∃ st', walk_bits root st items = Ok st' ∧ walking st'.
Proof.
  intros Hroot. revert st. induction items as [|item items IH]; intros st Hst.
  { by exists st. }
  simpl. destruct (walk_bit_total root st item) as (st1 & -> & Hst1); [done..|].
  by apply IH.
Qed.

Lemma walk_chunks_total root read_buffer st poss :
  walking (root, []) → walking st →
  ∃ st', walk_chunks root read_buffer st poss = Ok st' ∧ walking st'.
Proof.
  intros Hroot. revert st. induction poss as [|pos poss IH]; intros st Hst.
  { by exists st. }
  simpl.
  destruct (walk_bits_total root st (slice8 read_buffer pos)) as (st1 & -> & Hst1);
    [done..|].
  by apply IH.
Qed.

(** The keys of a code table are symbols: strings of one byte. *)
Definition symbol_keys {V} (d : dict V) : Prop := Forall (λ kv, length kv.1 = 1%nat) d.

Lemma decode_dict_length huffman_dic :
  huffman_dic ≠ [] → symbol_keys huffman_dic → (1 < length (decode_dict huffman_dic))%nat.
Proof.
  intros Hne Hsym. unfold decode_dict. case_decide as Hlen.
  - destruct huffman_dic as [|[k w] [|? ?]]; [done| |done].
    apply Forall_cons in Hsym as [Hk _]. simpl in *.
    case_decide as E; [by subst k|]. simpl. lia.
  - destruct huffman_dic as [|? [|? ?]]; [done..|]. simpl. lia.
Qed.

Lemma decode_total str_bytes huffman_dic padding :
  huffman_dic ≠ [] → symbol_keys huffman_dic →
  ∃ root write_buffer,
    rebuild (decode_dict huffman_dic) = Ok root ∧ walking (root, []) ∧
    decode str_bytes huffman_dic padding = (decode_dict huffman_dic, Ok write_buffer).
Proof.
  intros Hne Hsym.
  pose proof (decode_dict_length huffman_dic Hne Hsym) as Hlen.
  destruct (rebuild_full (decode_dict huffman_dic)) as (root & Hroot & Hfull & Hin).
  { intros E. rewrite E in Hlen. simpl in Hlen. lia. }
  assert (Hw : walking (root, [])) by (split; [done|by apply Hin]).
  unfold decode. case_decide as Hz; [by destruct huffman_dic|].
  rewrite Hroot. cbn [bind].
  edestruct (walk_chunks_total root) as ([cur wb] & -> & _); [exact Hw..|].
  by exists root, wb.
Qed.

(** ** Dictionaries *)

Lemma dict_get_NoDup {V} (d : dict V) k v :
  NoDup (keys d) → (k, v) ∈ d → dict_get d k = Some v.
Proof.
  unfold keys. induction d as [|[k' v'] d IH]; simpl; intros Hnd Hin.
  { by apply elem_of_nil in Hin. }
  apply NoDup_cons in Hnd as [Hk' Hnd].
  apply elem_of_cons in Hin as [[= <- <-]|Hin]; [by rewrite decide_True|].
  case_decide as E; [|by apply IH]. subst k'. destruct Hk'.
  apply list_elem_of_fmap. by exists (k, v).
Qed.

Lemma keys_dict_set {V} (d : dict V) k v : k ∈ keys d → keys (dict_set d k v) = keys d.
Proof.
  unfold keys. induction d as [|[k' v'] d IH]; simpl; intros Hin.
  { by apply elem_of_nil in Hin. }
  case_decide as E; [done|]. simpl. f_equal. apply IH.
  apply elem_of_cons in Hin as [->|Hin]; done.
Qed.

Lemma dict_get_set_eq {V} (d : dict V) k v : dict_get (dict_set d k v) k = Some v.
Proof.
  induction d as [|[k' v'] d IH]; simpl; [by rewrite decide_True|].
  case_decide as E; simpl; [by rewrite decide_True|by rewrite decide_False].
Qed.

Lemma dict_get_set_ne {V} (d : dict V) k k' v :
  k ≠ k' → dict_get (dict_set d k v) k' = dict_get d k'.
Proof.
  intros Hne. induction d as [|[k1 v1] d IH]; simpl; [by rewrite decide_False|].
  case_decide as E; simpl.
  - subst k1. by rewrite !decide_False.
  - case_decide; [done|]. apply IH.
Qed.

(** Writing a list of entries into a dictionary, first entry first. *)
Definition dict_update (d : dict str) (entries : list (bytes * str)) : dict str :=
  foldl (λ d kc, dict_set d kc.1 kc.2) d entries.

Lemma dict_update_app d e1 e2 :
  dict_update d (e1 ++ e2) = dict_update (dict_update d e1) e2.
Proof. apply foldl_app. Qed.

Lemma keys_dict_update d entries :
  entries.*1 ⊆ keys d → keys (dict_update d entries) = keys d.
Proof.
  revert d. induction entries as [|[k c] entries IH]; intros d Hsub; [done|].
  simpl in *. rewrite IH.
  - apply keys_dict_set. apply Hsub. left.
  - rewrite keys_dict_set; [|apply Hsub; left]. intros x Hx. apply Hsub. by right.
Qed.

Lemma dict_get_update_other d entries k :
  k ∉ entries.*1 → dict_get (dict_update d entries) k = dict_get d k.
Proof.
  revert d. induction entries as [|[k' c] entries IH]; intros d Hk; [done|].
  simpl in *. apply not_elem_of_cons in Hk as [Hne Hk].
  rewrite IH by done. by apply dict_get_set_ne.
Qed.

Lemma dict_get_update d entries k c :
  NoDup entries.*1 → (k, c) ∈ entries →
  dict_get (dict_update d entries) k = Some c.
Proof.
  revert d. induction entries as [|[k' c'] entries IH]; intros d Hnd Hin.
  { by apply elem_of_nil in Hin. }
  simpl in *. apply NoDup_cons in Hnd as [Hk' Hnd].
  apply elem_of_cons in Hin as [[= <- <-]|Hin]; [|by apply IH].
  rewrite dict_get_update_other by done. apply dict_get_set_eq.
Qed.

(** A dictionary that was filled with a list of entries holds them. *)
Lemma dict_update_perm d entries :
  NoDup (keys d) → entries.*1 ≡ₚ keys d → dict_update d entries ≡ₚ entries.
Proof.
  intros Hnd Hperm.
  assert (Hnd' : NoDup entries.*1) by by rewrite Hperm.
  assert (Hkeys : keys (dict_update d entries) = keys d).
  { apply keys_dict_update. intros x. by rewrite Hperm. }
  apply NoDup_Permutation.
  - apply (NoDup_fmap_1 fst). unfold keys in Hkeys. by rewrite Hkeys.
  - by apply (NoDup_fmap_1 fst).
  - intros [k c]. split; intros Hin.
    + assert (k ∈ entries.*1) as Hk.
      { rewrite Hperm, <-Hkeys. apply list_elem_of_fmap. by exists (k, c). }
      apply list_elem_of_fmap in Hk as ([k' c'] & -> & Hin').
      pose proof (dict_get_update d entries _ _ Hnd' Hin') as Hget.
      rewrite (dict_get_NoDup _ _ c) in Hget; [|by rewrite Hkeys|done].
      by injection Hget as ->.
    + apply dict_get_elem_of. by apply dict_get_update.
Qed.

(** ** Code trees and their code words *)

(** The shape of a code tree: its symbols and how they branch. *)
Inductive tree :=
| Leaf (k : bytes)
| Br (l r : tree).

Fixpoint leaves (t : tree) : list bytes :=
  match t with
  | Leaf k => [k]
  | Br l r => leaves l ++ leaves r
  end.

(** The entries [dlr] writes when it enters the tree with the word [p]. *)
Fixpoint codes (t : tree) (p : str) : list (bytes * str) :=
  match t with
  | Leaf k => [(k, p)]
  | Br l r => codes l (p ++ ["0"%char]) ++ codes r (p ++ ["1"%char])
  end.

Inductive shape {W} : Node W → tree → Prop :=
| shape_leaf k w : shape (mkNode (Some k) w None None) (Leaf k)
| shape_br v w l r tl tr :
    shape l tl → shape r tr → shape (mkNode v w (Some l) (Some r)) (Br tl tr).

Lemma codes_keys t p : (codes t p).*1 = leaves t.
Proof.
  revert p. induction t as [k|l IHl r IHr]; intros p; [done|].
  simpl. by rewrite fmap_app, IHl, IHr.
Qed.

Lemma codes_prefix t p k c : (k, c) ∈ codes t p → ∃ u, c = p ++ u.
Proof.
  revert p. induction t as [k'|l IHl r IHr]; intros p; simpl.
  - intros [= -> ->]%list_elem_of_singleton. exists []. by rewrite app_nil_r.
  - intros [Hin|Hin]%elem_of_app.
    + destruct (IHl _ Hin) as [u ->]. eexists. by rewrite <-app_assoc.
    + destruct (IHr _ Hin) as [u ->]. eexists. by rewrite <-app_assoc.
Qed.

Lemma codes_bit_str t p k c : bit_str p → (k, c) ∈ codes t p → bit_str c.
Proof.
  revert p. induction t as [k'|l IHl r IHr]; intros p Hp; simpl.
  - by intros [= -> ->]%list_elem_of_singleton.
  - intros [Hin|Hin]%elem_of_app.
    + eapply IHl; [|done]. apply bit_str_app. split; [done|]. repeat constructor.
    + eapply IHr; [|done]. apply bit_str_app. split; [done|].
      constructor; [by right|constructor].
Qed.

(** No code word of a tree with distinct symbols begins another one. *)
Lemma codes_prefix_free t p k1 c1 k2 c2 :
  NoDup (leaves t) → (k1, c1) ∈ codes t p → (k2, c2) ∈ codes t p →
  c1 `prefix_of` c2 → k1 = k2.
Proof.
  revert p. induction t as [k|l IHl r IHr]; intros p Hnd; simpl.
  { by intros [= -> ->]%list_elem_of_singleton [= -> ->]%list_elem_of_singleton. }
  simpl in Hnd. apply NoDup_app in Hnd as (Hl & _ & Hr).
  intros [H1|H1]%elem_of_app [H2|H2]%elem_of_app Hpre; [by eapply IHl| | |by eapply IHr].
  - destruct (codes_prefix _ _ _ _ H1) as [u ->], (codes_prefix _ _ _ _ H2) as [v ->].
    destruct Hpre as [w Hw]. rewrite <-!app_assoc in Hw.
    by apply app_inv_head in Hw.
  - destruct (codes_prefix _ _ _ _ H1) as [u ->], (codes_prefix _ _ _ _ H2) as [v ->].
    destruct Hpre as [w Hw]. rewrite <-!app_assoc in Hw.
    by apply app_inv_head in Hw.
Qed.

Lemma codes_nonempty l r k c : (k, c) ∈ codes (Br l r) [] → c ≠ [].
Proof.
  simpl. intros [Hin|Hin]%elem_of_app;
    destruct (codes_prefix _ _ _ _ Hin) as [u ->]; done.
Qed.

(** [dlr] writes the entries of the tree, from left to right. *)
Lemma dlr_node_codes n t p d : shape n t → dlr_node n p d = dict_update d (codes t p).
Proof.
  intros Hs. revert p d. induction Hs as [k w|v w l r tl tr _ IHl _ IHr]; intros p d.
  - done.
  - simpl. by rewrite dict_update_app, IHl, IHr.
Qed.

(** The shape of a node; on the nodes that are not [full] it is of no use. *)
Fixpoint tree_of {W} (n : Node W) : tree :=
  match n with
  | mkNode _ _ (Some l) (Some r) => Br (tree_of l) (tree_of r)
  | mkNode v _ _ _ => Leaf (default [] v)
  end.

Lemma full_tree_of {W} (n : Node W) : full n → shape n (tree_of n).
Proof. induction 1; simpl; by constructor. Qed.

(** The symbols of a forest. *)
Definition forest_leaves {W} (l : list (Node W)) : list bytes :=
  mjoin ((λ n, leaves (tree_of n)) <$> l).

Lemma forest_leaves_perm {W} (l l' : list (Node W)) :
  l ≡ₚ l' → forest_leaves l ≡ₚ forest_leaves l'.
Proof. intros H. unfold forest_leaves. by rewrite H. Qed.

Lemma forest_leaves_app {W} (l l' : list (Node W)) :
  forest_leaves (l ++ l') = forest_leaves l ++ forest_leaves l'.
Proof. unfold forest_leaves. by rewrite fmap_app, join_app. Qed.

Lemma forest_leaves_leaf_nodes {W} (d : dict W) : forest_leaves (leaf_node <$> d) = keys d.
Proof.
  unfold forest_leaves, keys. induction d as [|[k w] d IH]; [done|].
  cbn. f_equal. apply IH.
Qed.

(** *** The merging loop of [build] *)

(** The node a round of [build] makes of the two popped nodes. *)
Definition weight_parent (node_1 node_2 : Node Z) : Node Z :=
  mkNode None (weight node_1 + weight node_2) (Some node_1) (Some node_2).

Lemma adjust_spec i x rest y :
  (i ≤ length rest)%nat →
  ∃ j, adjust i x (take i rest ++ y :: drop i rest)
       = Ok (take j rest ++ x :: drop j rest).
Proof.
  revert y. induction i as [|i IH]; intros y Hi.
  { exists 0%nat. rewrite take_0, drop_0. cbn. unfold list_assign.
    rewrite decide_True by (simpl; lia). done. }
  destruct (lookup_lt_is_Some_2 rest i) as [prev Hprev]; [lia|].
  assert (Hlen : length (take (S i) rest) = S i) by (rewrite length_take; lia).
  cbn [adjust]. unfold list_item.
  rewrite lookup_app_l by lia. rewrite lookup_take_lt by lia. rewrite Hprev.
  cbn [of_option bind].
  assert (Hassign : ∀ z, list_assign (take (S i) rest ++ y :: drop (S i) rest) (S i) z
                         = Ok (take (S i) rest ++ z :: drop (S i) rest)).
  { intros z. unfold list_assign. rewrite decide_True.
    - f_equal. rewrite insert_app_r_alt by lia. by rewrite Hlen, Nat.sub_diag.
    - rewrite length_app, Hlen. simpl. lia. }
  rewrite !Hassign. destruct (weight prev <=? weight x).
  - cbn [bind]. rewrite (take_S_r _ _ _ Hprev), <-app_assoc. cbn [app].
    rewrite <-(drop_S _ _ _ Hprev). apply IH. lia.
  - by exists (S i).
Qed.

Lemma build_body_app l x y :
  ∃ l', build_body (l ++ [x; y]) = Ok l' ∧ l' ≡ₚ l ++ [weight_parent x y].
Proof.
  unfold build_body.
  replace (l ++ [x; y]) with ((l ++ [x]) ++ [y]) by by rewrite <-app_assoc.
  rewrite pop_app. cbn [bind]. rewrite pop_app. cbn [bind].
  fold (weight_parent x y). rewrite length_app. cbn [length].
  replace (length l + 1 - 1)%nat with (length l) by lia.
  destruct (adjust_spec (length l) (weight_parent x y) l (weight_parent x y)) as [j Hj];
    [done|].
  rewrite take_ge, drop_ge in Hj by done. rewrite Hj.
  eexists. split; [done|].
  rewrite <-(take_drop j l) at 3. rewrite <-app_assoc.
  apply Permutation_app_head. apply Permutation_cons_append.
Qed.

Lemma build_loop_spec l :
  l ≠ [] → Forall full l →
  ∃ root, build_loop l = Ok [root] ∧ full root ∧
    leaves (tree_of root) ≡ₚ forest_leaves l ∧
    ((1 < length l)%nat → is_leaf root = false).
Proof.
  remember (length l) as n eqn:Hn. revert l Hn.
  induction (lt_wf n) as [n _ IH]; intros l -> Hne Hfull.
  rewrite build_loop_eq. destruct (decide (1 < length l)%nat) as [Hlen|Hlen].
  - destruct (pop_long l) as (l' & x & y & ->); [lia|].
    destruct (build_body_app l' x y) as (l1 & -> & Hperm). cbn [bind].
    apply Forall_app in Hfull as [Hl' Hxy].
    apply Forall_cons in Hxy as [Hx Hy]. apply Forall_cons in Hy as [Hy _].
    assert (Hlen1 : length l1 = S (length l')).
    { rewrite Hperm, length_app. simpl. lia. }
    destruct (IH (length l1)) with (l := l1) as (root & Hrun & Hroot & Hlv & Hin);
      [|done| | |].
    { rewrite Hlen1, length_app. simpl. lia. }
    { intros E. by rewrite E in Hlen1. }
    { rewrite Hperm. apply Forall_app. split; [done|]. repeat constructor; done. }
    exists root. split_and!; [done..| |].
    + rewrite Hlv, (forest_leaves_perm _ _ Hperm), !forest_leaves_app.
      apply Permutation_app_head. unfold forest_leaves. cbn. by rewrite !app_nil_r.
    + intros _. destruct l' as [|z l'].
      * apply Permutation_singleton_r in Hperm. subst l1.
        rewrite build_loop_eq in Hrun. cbn in Hrun. by injection Hrun as <-.
      * apply Hin. rewrite Hlen1. simpl. lia.
  - destruct l as [|x [|y l]]; [done| |simpl in Hlen; lia].
    apply Forall_cons in Hfull as [Hx _]. exists x. split_and!; [done..| |simpl; lia].
    unfold forest_leaves. cbn. by rewrite app_nil_r.
Qed.

Lemma sort_by_weight_perm l : sort_by_weight l ≡ₚ l.
Proof. apply stable_sort_perm. Qed.

Lemma tree_of_inner {W} (n : Node W) :
  full n → is_leaf n = false → ∃ tl tr, tree_of n = Br tl tr.
Proof. destruct 1; [done|]. intros _. simpl. by eexists _, _. Qed.

(** What [build] returns for two symbols or more: the code words of a
    tree whose leaves are the symbols, stored under the keys of the
    frequency dictionary in their order. *)
Lemma build_spec fre_dic :
  NoDup (keys fre_dic) → (2 ≤ length fre_dic)%nat →
  ∃ table tl tr,
    build fre_dic = Ok table ∧ keys table = keys fre_dic ∧
    table ≡ₚ codes (Br tl tr) [] ∧ NoDup (leaves (Br tl tr)).
Proof.
  intros Hnd Hlen. unfold build.
  rewrite decide_False by lia. rewrite decide_False by lia.
  set (l := sort_by_weight (leaf_node <$> fre_dic)).
  assert (Hperm : l ≡ₚ leaf_node <$> fre_dic) by apply sort_by_weight_perm.
  destruct (build_loop_spec l) as (root & -> & Hfull & Hlv & Hin).
  { intros E. rewrite E in Hperm. apply Permutation_nil in Hperm.
    apply fmap_nil_inv in Hperm. subst fre_dic. simpl in Hlen. lia. }
  { rewrite Hperm. apply Forall_fmap, Forall_true. intros [k w]. constructor. }
  cbn [bind list_item lookup list_lookup of_option dlr].
  rewrite (forest_leaves_perm _ _ Hperm), forest_leaves_leaf_nodes in Hlv.
  destruct (tree_of_inner root Hfull) as (tl & tr & Ht).
  { apply Hin. rewrite Hperm, length_fmap. lia. }
  rewrite (dlr_node_codes root (tree_of root)) by by apply full_tree_of.
  rewrite Ht in *.
  set (d0 := (λ k, (k, [])) <$> keys fre_dic).
  assert (Hd0 : keys d0 = keys fre_dic).
  { unfold d0, keys. rewrite <-list_fmap_compose. apply list_fmap_id. }
  exists (dict_update d0 (codes (Br tl tr) [])), tl, tr. split_and!.
  - done.
  - rewrite keys_dict_update; [exact Hd0|]. rewrite codes_keys, Hd0. intros k. by rewrite Hlv.
  - apply dict_update_perm; [by rewrite Hd0|]. by rewrite codes_keys, Hd0.
  - by rewrite Hlv.
Qed.

(** ** The tree [decode] rebuilds from a table *)

(** A forest seen as one tree whose leaves are the nodes of the forest:
    the merges that are still to be done. *)
Inductive sk :=
| SL (n : Node str)
| SB (l r : sk).

Fixpoint sleaves (s : sk) : list (Node str) :=
  match s with
  | SL n => [n]
  | SB l r => sleaves l ++ sleaves r
  end.

(** The tree all the merges end with. *)
Fixpoint glue (p : str) (s : sk) : Node str :=
  match s with
  | SL n => n
  | SB l r =>
      mkNode None p (Some (glue (p ++ ["0"%char]) l)) (Some (glue (p ++ ["1"%char]) r))
  end.

(** Every node of the forest sits at the place its word names. *)
Fixpoint wfs (p : str) (s : sk) : Prop :=
  match s with
  | SL n => weight n = p
  | SB l r => wfs (p ++ ["0"%char]) l ∧ wfs (p ++ ["1"%char]) r
  end.

Fixpoint depth (s : sk) : nat :=
  match s with
  | SL _ => 0
  | SB l r => S (depth l `max` depth r)
  end.

Fixpoint size (s : sk) : nat :=
  match s with
  | SL _ => 0
  | SB l r => S (size l + size r)
  end.

Lemma sleaves_word s p x :
  wfs p s → x ∈ sleaves s → ∃ u, weight x = p ++ u ∧ (length u ≤ depth s)%nat.
Proof.
  revert p. induction s as [n|l IHl r IHr]; intros p; simpl.
  - intros <- ->%list_elem_of_singleton. exists []. by rewrite app_nil_r.
  - intros [Hl Hr] [Hin|Hin]%elem_of_app.
    + destruct (IHl _ Hl Hin) as (u & -> & Hu). eexists. rewrite <-app_assoc.
      split; [done|]. simpl. lia.
    + destruct (IHr _ Hr Hin) as (u & -> & Hu). eexists. rewrite <-app_assoc.
      split; [done|]. simpl. lia.
Qed.

Lemma sleaves_weights_NoDup s p : wfs p s → NoDup (weight <$> sleaves s).
Proof.
  revert p. induction s as [n|l IHl r IHr]; intros p; simpl.
  { intros _. apply NoDup_singleton. }
  intros [Hl Hr]. rewrite fmap_app. apply NoDup_app. split_and!; [by eapply IHl| |by eapply IHr].
  intros w (x & -> & Hx)%list_elem_of_fmap (y & Hxy & Hy)%list_elem_of_fmap.
  destruct (sleaves_word _ _ _ Hl Hx) as (u & Hu & _).
  destruct (sleaves_word _ _ _ Hr Hy) as (v & Hv & _).
  pose proof (eq_trans (eq_sym Hu) (eq_trans Hxy Hv)) as E.
  rewrite <-!app_assoc in E. by apply app_inv_head in E.
Qed.

Lemma NoDup_fmap_eq {A B} (f : A → B) (l : list A) x y :
  NoDup (f <$> l) → x ∈ l → y ∈ l → f x = f y → x = y.
Proof.
  induction l as [|z l IH]; simpl; intros Hnd Hx Hy Hf.
  { by apply elem_of_nil in Hx. }
  apply NoDup_cons in Hnd as [Hz Hnd].
  apply elem_of_cons in Hx as [->|Hx]; apply elem_of_cons in Hy as [->|Hy];
    [done| | |by apply IH].
  - destruct Hz. rewrite Hf. by apply list_elem_of_fmap_2.
  - destruct Hz. rewrite <-Hf. by apply list_elem_of_fmap_2.
Qed.

Lemma drop_last_snoc w c : drop_last (w ++ [c]) = w.
Proof.
  unfold drop_last. rewrite length_app. simpl.
  replace (length w + 1 - 1)%nat with (length w) by lia. by rewrite take_app_length.
Qed.

Lemma size_0_SL s : size s = 0%nat → ∃ n, s = SL n.
Proof. destruct s; [by eexists|done]. Qed.

Lemma depth_0_size s : depth s = 0%nat → size s = 0%nat.
Proof. by destruct s. Qed.

(** The two nodes the next round pops, the forest that round leaves, and
    why the sort puts those two last. *)
Lemma next_merge s p :
  wfs p s → (0 < size s)%nat →
  ∃ s' a a' rest q v,
    wfs p s' ∧ glue p s' = glue p s ∧ size s = S (size s') ∧
    sleaves s ≡ₚ rest ++ [a; a'] ∧ sleaves s' ≡ₚ rest ++ [code_parent a a'] ∧
    weight a = q ++ ["0"%char] ∧ weight a' = q ++ ["1"%char] ∧ q = p ++ v ∧
    (length v + 1 = depth s)%nat ∧
    Forall (λ x, key_ltb (weight x) (weight a) = true) rest.
Proof.
  revert p. induction s as [n|l IHl r IHr]; intros p Hwf Hsize; [simpl in Hsize; lia|].
  destruct Hwf as [Hl Hr].
  destruct (decide (size l = 0%nat ∧ size r = 0%nat)) as [[El Er]|Hne].
  - apply size_0_SL in El as [a ->], Er as [a' ->]. simpl in Hl, Hr.
    exists (SL (code_parent a a')), a, a', [], p, [].
    split_and!; try done.
    + simpl. by rewrite Hl, drop_last_snoc.
    + simpl. unfold code_parent. by rewrite Hl, drop_last_snoc.
    + by rewrite app_nil_r.
  - destruct (decide (depth l ≤ depth r)%nat) as [Hd|Hd].
    + destruct (IHr _ Hr) as (s' & a & a' & rest & q & v & Hwf' & Hglue & Hsz & Hp & Hp'
                              & Ha & Ha' & Hq & Hv & Hrest).
      { destruct (decide (size r = 0%nat)) as [E|]; [|lia].
        destruct r; [|done]. simpl in Hd.
        assert (depth l = 0%nat) as ?%depth_0_size by lia. lia. }
      exists (SB l s'), a, a', (sleaves l ++ rest), q, ("1"%char :: v).
      split_and!.
      * done.
      * simpl. by rewrite Hglue.
      * simpl. lia.
      * simpl. by rewrite Hp, app_assoc.
      * simpl. by rewrite Hp', app_assoc.
      * done.
      * done.
      * by rewrite Hq, <-app_assoc.
      * simpl. lia.
      * apply Forall_app. split; [|done]. apply Forall_forall. intros x Hx.
        destruct (sleaves_word _ _ _ Hl Hx) as (u & Hu & Hlen).
        rewrite Hu, Ha, Hq, <-!app_assoc. cbn [app].
        destruct (decide (length u = length (v ++ ["0"%char]))) as [E|E].
        -- by apply key_ltb_fork.
        -- apply key_ltb_shorter. rewrite length_app in E.
           rewrite !length_app. cbn [length] in *. rewrite length_app. cbn [length]. lia.
    + destruct (IHl _ Hl) as (s' & a & a' & rest & q & v & Hwf' & Hglue & Hsz & Hp & Hp'
                              & Ha & Ha' & Hq & Hv & Hrest).
      { destruct l; [simpl in Hd; lia|simpl; lia]. }
      exists (SB s' r), a, a', (rest ++ sleaves r), q, ("0"%char :: v).
      split_and!.
      * done.
      * simpl. by rewrite Hglue.
      * simpl. lia.
      * simpl. rewrite Hp, <-!app_assoc. apply Permutation_app_head, Permutation_app_comm.
      * simpl. rewrite Hp', <-!app_assoc. apply Permutation_app_head, Permutation_app_comm.
      * done.
      * done.
      * by rewrite Hq, <-app_assoc.
      * simpl. lia.
      * apply Forall_app. split; [done|]. apply Forall_forall. intros x Hx.
        destruct (sleaves_word _ _ _ Hr Hx) as (u & Hu & Hlen).
        rewrite Hu, Ha, Hq. apply key_ltb_shorter.
        rewrite !length_app. cbn [length]. lia.
Qed.

(** The order [sort_by_code] sorts by. *)
Definition code_before (y x : Node str) : bool := key_ltb (weight y) (weight x).

Lemma code_before_asym x y : code_before x y = true → code_before y x = false.
Proof. apply key_ltb_asym. Qed.

Lemma code_precede_trans x y z :
  may_precede code_before x y → may_precede code_before y z →
  may_precede code_before x z.
Proof. unfold may_precede, code_before. apply key_leb_trans. Qed.

Lemma code_tie l x y :
  NoDup (weight <$> l) → x ∈ l → y ∈ l →
  may_precede code_before x y → may_precede code_before y x → x = y.
Proof.
  unfold may_precede, code_before. intros Hnd Hx Hy H1 H2.
  apply (NoDup_fmap_eq weight l); [done..|]. by apply key_ltb_tri.
Qed.

Lemma sort_by_code_unique l l' :
  NoDup (weight <$> l) → l ≡ₚ l' → sort_by_code l = sort_by_code l'.
Proof.
  intros Hnd Hperm.
  apply (stable_sort_unique code_before code_before_asym code_precede_trans);
    [|done].
  intros x y. by apply code_tie.
Qed.

(** The merging loop of [decode] carries out all the merges. *)
Lemma decode_loop_glue s :
  wfs [] s → decode_loop (sort_by_code (sleaves s)) = Ok [glue [] s].
Proof.
  remember (size s) as n eqn:Hn. revert s Hn.
  induction n as [|n IH]; intros s Hn Hwf.
  { symmetry in Hn. apply size_0_SL in Hn as [x ->]. cbn.
    by rewrite decode_loop_eq. }
  destruct (next_merge s [] Hwf) as (s' & a & a' & rest & q & v & Hwf' & Hglue & Hsz & Hp
                                     & Hp' & Ha & Ha' & Hq & Hv & Hrest); [lia|].
  assert (Hsort : sort_by_code (sleaves s) = sort_by_code rest ++ [a; a']).
  { apply (stable_sort_sorted_id code_before code_before_asym code_precede_trans).
    - intros x y. apply code_tie. by eapply sleaves_weights_NoDup.
    - apply StronglySorted_app. split_and!.
      + intros x y Hx Hy. rewrite sort_by_code_perm in Hx.
        rewrite Forall_forall in Hrest. specialize (Hrest _ Hx).
        apply key_ltb_asym.
        apply elem_of_cons in Hy as [->|Hy]; [done|].
        apply list_elem_of_singleton in Hy as ->.
        eapply key_ltb_trans; [done|]. rewrite Ha, Ha'. by apply key_ltb_fork.
      + apply (stable_sort_sorted code_before code_before_asym code_precede_trans).
      + repeat constructor. apply key_ltb_asym. rewrite Ha, Ha'.
        by apply key_ltb_fork.
    - by rewrite Hp, sort_by_code_perm. }
  rewrite Hsort, decode_loop_eq.
  rewrite decide_True by (rewrite length_app; simpl; lia).
  rewrite decode_body_app. cbn [bind].
  rewrite <-(sort_by_code_unique (sleaves s')).
  - rewrite <-Hglue. apply IH; [lia|done].
  - by eapply sleaves_weights_NoDup.
  - by rewrite Hp', sort_by_code_perm.
Qed.

(** The forest a tree's table starts the loop with. *)
Fixpoint sk_of (t : tree) (p : str) : sk :=
  match t with
  | Leaf k => SL (leaf_node (k, p))
  | Br l r => SB (sk_of l (p ++ ["0"%char])) (sk_of r (p ++ ["1"%char]))
  end.

Lemma sleaves_sk_of t p : sleaves (sk_of t p) = leaf_node <$> codes t p.
Proof.
  revert p. induction t as [k|l IHl r IHr]; intros p; [done|].
  simpl. by rewrite fmap_app, IHl, IHr.
Qed.

Lemma wfs_sk_of t p : wfs p (sk_of t p).
Proof. revert p. induction t as [k|l IHl r IHr]; intros p; simpl; auto. Qed.

Lemma shape_glue_sk_of t p : shape (glue p (sk_of t p)) t.
Proof.
  revert p. induction t as [k|l IHl r IHr]; intros p; simpl; by constructor.
Qed.

(** From the table of a tree, [decode] rebuilds a tree of that shape. *)
Lemma rebuild_shape huffman_dic t :
  huffman_dic ≡ₚ codes t [] →
  ∃ root, rebuild huffman_dic = Ok root ∧ shape root t.
Proof.
  intros Hperm. exists (glue [] (sk_of t [])). split; [|apply shape_glue_sk_of].
  unfold rebuild.
  rewrite <-(sort_by_code_unique (sleaves (sk_of t []))).
  - rewrite decode_loop_glue by apply wfs_sk_of. done.
  - eapply sleaves_weights_NoDup, wfs_sk_of.
  - by rewrite sleaves_sk_of, Hperm.
Qed.

(** ** Walking the tree along code words *)

Lemma walk_bits_app root st items1 items2 :
  walk_bits root st (items1 ++ items2)
  = let* st' := walk_bits root st items1 in walk_bits root st' items2.
Proof.
  revert st. induction items1 as [|item items1 IH]; intros st; [done|].
  simpl. destruct (walk_bit root st item); [|done]. apply IH.
Qed.

(** Below an inner node, the bits of a code word lead to its symbol and
    back to the root. *)
Lemma walk_code root n t p k u rest write_buffer :
  shape n t → (k, p ++ u) ∈ codes t p →
  match t with
  | Leaf _ => u = []
  | Br _ _ =>
      walk_bits root (n, write_buffer) (bits_of u ++ rest)
      = walk_bits root (root, write_buffer ++ k) rest
  end.
Proof.
  intros Hs. revert p u. induction Hs as [k' w|v w l r tl tr Hl IHl Hr IHr]; intros p u.
  { intros [= _ Hu]%list_elem_of_singleton.
    rewrite <-(app_nil_r p) in Hu at 2. by apply app_inv_head in Hu. }
  assert (∀ c (ch : ascii) tc bit, shape c tc → bit = bool_decide (ch = "1"%char) →
            (if bit then Some r else Some l) = Some c →
            (∀ u', (k, (p ++ [ch]) ++ u') ∈ codes tc (p ++ [ch]) →
               match tc with
               | Leaf _ => u' = []
               | Br _ _ =>
                   walk_bits root (c, write_buffer) (bits_of u' ++ rest)
                   = walk_bits root (root, write_buffer ++ k) rest
               end) →
            (k, p ++ u) ∈ codes tc (p ++ [ch]) →
            walk_bits root (mkNode v w (Some l) (Some r), write_buffer)
              (bits_of u ++ rest)
            = walk_bits root (root, write_buffer ++ k) rest) as Hside.
  { intros c ch tc bit Hc -> Hchild IH Hin.
    destruct (codes_prefix _ _ _ _ Hin) as [u' Hu'].
    rewrite <-app_assoc in Hu'. apply app_inv_head in Hu'. subst u.
    rewrite (assoc_L (++) p [ch] u') in Hin. specialize (IH _ Hin).
    change (bits_of ([ch] ++ u')) with (bool_decide (ch = "1"%char) :: bits_of u').
    cbn [app walk_bits walk_bit].
    replace (if bool_decide (ch = "1"%char) then rchild (mkNode v w (Some l) (Some r))
             else lchild (mkNode v w (Some l) (Some r))) with (Some c)
      by (rewrite <-Hchild; by destruct (bool_decide _)).
    cbn [of_option bind]. destruct Hc as [k1 w1|v1 w1 l1 r1 tl1 tr1 Hl1 Hr1].
    - subst u'. apply list_elem_of_singleton in Hin. injection Hin as ->. done.
    - cbn [is_leaf lchild rchild bind]. apply IH. }
  simpl. intros [Hin|Hin]%elem_of_app.
  - apply (Hside l "0"%char tl false); [done|done|done|intros u'; apply IHl|done].
  - apply (Hside r "1"%char tr true); [done|done|done|intros u'; apply IHr|done].
Qed.

(** The code word of every byte of [data] is its code word in the tree. *)
Definition coded_by (huffman_dic : dict str) (t : tree) (data : bytes) : Prop :=
  Forall (λ item, (int_to_bytes item, code_of huffman_dic item) ∈ codes t []) data.

Lemma walk_stream root huffman_dic tl tr data write_buffer :
  shape root (Br tl tr) → coded_by huffman_dic (Br tl tr) data →
  walk_bits root (root, write_buffer) (bits_of (stream huffman_dic data))
  = Ok (root, write_buffer ++ data).
Proof.
  intros Hs Hcov. revert write_buffer.
  induction Hcov as [|item data Hc _ IH]; intros wb.
  { cbn. by rewrite app_nil_r. }
  change (stream huffman_dic (item :: data))
    with (code_of huffman_dic item ++ stream huffman_dic data).
  rewrite bits_of_app.
  pose proof (walk_code root root (Br tl tr) [] (int_to_bytes item)
                (code_of huffman_dic item)
                (bits_of (stream huffman_dic data)) wb Hs Hc) as Hw.
  hnf in Hw. rewrite Hw, IH. by rewrite <-app_assoc.
Qed.

Lemma covered_coded_by huffman_dic t data :
  huffman_dic ≡ₚ codes t [] → covered huffman_dic data → coded_by huffman_dic t data.
Proof.
  intros Hperm Hcov. eapply Forall_impl; [exact Hcov|]. intros item [c Hc].
  unfold code_of. rewrite Hc. apply dict_get_elem_of in Hc. by rewrite <-Hperm.
Qed.

(** *** The two loops over the bits *)

Lemma walk_chunks_join root read_buffer st poss :
  walk_chunks root read_buffer st poss
  = walk_bits root st (mjoin (slice8 read_buffer <$> poss)).
Proof.
  revert st. induction poss as [|pos poss IH]; intros st; [done|].
  cbn [walk_chunks fmap list_fmap mjoin list_join]. rewrite walk_bits_app.
  destruct (walk_bits root st (slice8 read_buffer pos)); [|done]. apply IH.
Qed.

Lemma join_slices {A} (l : list A) n k :
  (length l ≤ 8 * (k + n))%nat →
  mjoin (slice8 l <$> ((λ i, 8 * i)%nat <$> seq k n)) = drop (8 * k) l.
Proof.
  revert k. induction n as [|n IH]; intros k Hlen.
  { simpl. rewrite drop_ge; [done|lia]. }
  cbn [seq fmap list_fmap mjoin list_join]. unfold fmap in IH. rewrite IH by lia.
  unfold slice8. replace (8 * S k)%nat with (8 * k + 8)%nat by lia.
  by rewrite <-drop_drop, take_drop.
Qed.

Lemma join_range8_ge {A} (l : list A) n :
  Z.of_nat (length l) ≤ n → mjoin (slice8 l <$> range8 n) = l.
Proof.
  intros Hn. unfold range8. rewrite join_slices; [done|].
  assert (n ≤ 8 * ((n + 7) / 8)).
  { pose proof (Z.mul_succ_div_gt (n + 7) 8). lia. }
  lia.
Qed.

Lemma join_range8 {A} (l : list A) :
  mjoin (slice8 l <$> range8 (Z.of_nat (length l))) = l.
Proof. by apply join_range8_ge. Qed.

Lemma range8_nonpos n : n ≤ 0 → range8 n = [].
Proof.
  intros Hn. unfold range8.
  assert ((n + 7) / 8 < 1) by (apply Z.div_lt_upper_bound; lia).
  by replace (Z.to_nat ((n + 7) / 8)) with 0%nat by lia.
Qed.

Lemma slice_to_app {A} (l1 l2 : list A) : slice_to (l1 ++ l2) (Z.of_nat (length l1)) = l1.
Proof.
  unfold slice_to. rewrite length_app.
  destruct (Z.ltb_spec (Z.of_nat (length l1)) 0); [lia|].
  rewrite Z.min_l by lia. rewrite Nat2Z.id. by rewrite take_app_length.
Qed.

(** Decoding what [encode] packed: the bits of the stream are walked. *)
Lemma decode_encoded huffman_dic data packed padding :
  huffman_dic ≠ [] →
  0 ≤ padding →
  unpack packed = bits_of (stream huffman_dic data) ++ replicate (Z.to_nat padding) false →
  decode packed huffman_dic padding
  = (decode_dict huffman_dic,
     let* current := rebuild (decode_dict huffman_dic) in
     let* (_, write_buffer) :=
       walk_bits current (current, []) (bits_of (stream huffman_dic data)) in
     Ok write_buffer).
Proof.
  intros Hne Hpad Hbits. unfold decode.
  rewrite decide_False by by destruct huffman_dic.
  f_equal. destruct (rebuild (decode_dict huffman_dic)) as [root|]; [|done].
  cbn [bind]. fold (unpack packed). rewrite Hbits.
  assert (Hsize : 8 * Z.of_nat (length packed) - padding
                  = Z.of_nat (length (bits_of (stream huffman_dic data)))).
  { apply (f_equal length) in Hbits.
    rewrite length_unpack, length_app, length_replicate in Hbits. lia. }
  rewrite Hsize, slice_to_app, walk_chunks_join, join_range8. done.
Qed.

(** * The properties of the specification *)

(** ** [Node.build] *)

(** C8. [Node.build({})] returns the empty table without an error, and
    for a frequency dictionary of exactly one symbol it returns the
    one-entry table that maps the symbol to the one-digit word [0]. *)
Theorem build_degenerate :
  build [] = Ok [] ∧ ∀ k w, build [(k, w)] = Ok [(k, ["0"%char])].
Proof. split; [done|]. intros k w. done. Qed.

(** C2. For a frequency dictionary of two symbols or more, the table
    [Node.build] returns has the keys of the dictionary, every code word is
    a non-empty word over [0] and [1], and the code word of a symbol is
    never a prefix of the code word of another symbol. *)
Theorem build_prefix_free (fre_dic : dict Z) :
  NoDup (keys fre_dic) → (2 ≤ length fre_dic)%nat →
  ∃ table,
    build fre_dic = Ok table ∧ keys table = keys fre_dic ∧
    (∀ k c, (k, c) ∈ table → c ≠ [] ∧ bit_str c) ∧
    (∀ k1 c1 k2 c2, (k1, c1) ∈ table → (k2, c2) ∈ table → k1 ≠ k2 →
       ¬ c1 `prefix_of` c2).
Proof.
  intros Hnd Hlen.
  destruct (build_spec fre_dic Hnd Hlen) as (table & tl & tr & Hb & Hk & Hperm & Hlv).
  exists table. split_and!; [done..| |].
  - intros k c Hin. rewrite Hperm in Hin. split.
    + by eapply codes_nonempty.
    + eapply codes_bit_str; [|done]. constructor.
  - intros k1 c1 k2 c2 H1 H2 Hne Hpre. rewrite Hperm in H1, H2.
    apply Hne. by eapply codes_prefix_free.
Qed.

Lemma build_prefix_free_witness :
  ∃ table,
    build [([byte_of 0x4F], 2); ([byte_of 0x56], 1); ([byte_of 0x41], 1)] = Ok table ∧
    keys table = keys [([byte_of 0x4F], 2); ([byte_of 0x56], 1); ([byte_of 0x41], 1)] ∧
    (∀ k c, (k, c) ∈ table → c ≠ [] ∧ bit_str c) ∧
    (∀ k1 c1 k2 c2, (k1, c1) ∈ table → (k2, c2) ∈ table → k1 ≠ k2 →
       ¬ c1 `prefix_of` c2).
Proof.
  apply (build_prefix_free [([byte_of 0x4F], 2); ([byte_of 0x56], 1); ([byte_of 0x41], 1)]).
  - apply (bool_decide_unpack _). vm_compute. exact I.
  - simpl. lia.
Defined.

(** ** [Node.encode] *)

(** The number of code digits of a byte string. *)
Definition code_length (huffman_dic : dict str) (data : bytes) : nat :=
  sum_list ((λ item, length (code_of huffman_dic item)) <$> data).

Lemma length_stream huffman_dic data :
  length (stream huffman_dic data) = code_length huffman_dic data.
Proof.
  unfold stream, code_length. rewrite length_join. by rewrite <-list_fmap_compose.
Qed.

(** C3. For a table of words over [0] and [1] and a byte string whose
    bytes are all keys of the table, [Node.encode] returns [packed] and
    [padding] with [8 * len(packed) - padding] the sum of the lengths of
    the code words, [padding] between 0 and 7, [padding = 0] when that sum
    is a multiple of 8, nothing packed for the empty string, and the bits
    of [packed] are the code words in order followed by [padding] zero
    bits. *)
Theorem encode_bit_length (huffman_dic : dict str) (data : bytes) :
  bit_table huffman_dic → covered huffman_dic data →
  ∃ packed padding,
    encode data huffman_dic = Ok (packed, padding) ∧
    8 * Z.of_nat (length packed) - padding
      = Z.of_nat (code_length huffman_dic data) ∧
    0 ≤ padding ≤ 7 ∧
    (Z.of_nat (code_length huffman_dic data) `mod` 8 = 0 → padding = 0) ∧
    (data = [] → packed = [] ∧ padding = 0) ∧
    unpack packed
      = bits_of (stream huffman_dic data) ++ replicate (Z.to_nat padding) false.
Proof.
  intros Ht Hcov.
  destruct (encode_spec huffman_dic data Ht Hcov) as (packed & padding & He & Hp & Hbits).
  assert (Hlen : 8 * Z.of_nat (length packed) - padding
                 = Z.of_nat (code_length huffman_dic data)).
  { apply (f_equal length) in Hbits.
    rewrite length_unpack, length_app, length_replicate, length_bits_of,
      length_stream in Hbits. lia. }
  assert (Hmod : Z.of_nat (code_length huffman_dic data) `mod` 8 = 0 → padding = 0).
  { intros Hm. rewrite <-Hlen in Hm.
    replace (8 * Z.of_nat (length packed) - padding)
      with (- padding + Z.of_nat (length packed) * 8) in Hm by lia.
    rewrite Z.mod_add in Hm by lia.
    destruct (decide (padding = 0)) as [|Hne]; [done|].
    rewrite Z.mod_opp_l_nz in Hm by (rewrite ?Z.mod_small; lia).
    rewrite Z.mod_small in Hm; lia. }
  exists packed, padding. split_and!; [done|done|lia|lia|done| |done].
  intros ->. assert (padding = 0) as -> by by apply Hmod.
  split; [|done]. destruct packed; [done|]. simpl in Hlen. unfold code_length in Hlen.
  simpl in Hlen. lia.
Qed.

Lemma encode_bit_length_witness :
  ∃ packed padding,
    encode [byte_of 0x4F; byte_of 0x56; byte_of 0x4F] [([byte_of 0x4F], str_of "0"); ([byte_of 0x56], str_of "1")]
      = Ok (packed, padding) ∧
    8 * Z.of_nat (length packed) - padding
      = Z.of_nat (code_length [([byte_of 0x4F], str_of "0"); ([byte_of 0x56], str_of "1")]
                    [byte_of 0x4F; byte_of 0x56; byte_of 0x4F]) ∧
    0 ≤ padding ≤ 7 ∧
    (Z.of_nat (code_length [([byte_of 0x4F], str_of "0"); ([byte_of 0x56], str_of "1")]
                 [byte_of 0x4F; byte_of 0x56; byte_of 0x4F]) `mod` 8 = 0 → padding = 0) ∧
    ([byte_of 0x4F; byte_of 0x56; byte_of 0x4F] = [] → packed = [] ∧ padding = 0) ∧
    unpack packed
      = bits_of (stream [([byte_of 0x4F], str_of "0"); ([byte_of 0x56], str_of "1")]
                   [byte_of 0x4F; byte_of 0x56; byte_of 0x4F])
        ++ replicate (Z.to_nat padding) false.
Proof.
  apply (encode_bit_length [([byte_of 0x4F], str_of "0"); ([byte_of 0x56], str_of "1")]
           [byte_of 0x4F; byte_of 0x56; byte_of 0x4F]).
  - unfold bit_table, bit_str, is_bit. apply (bool_decide_unpack _). vm_compute. exact I.
  - unfold covered. apply (bool_decide_unpack _). vm_compute. exact I.
Defined.

(** C4. When some byte of the string is no key of the table, [Node.encode]
    raises [KeyError] for the first such byte and returns nothing. *)
Theorem encode_unknown_symbol (huffman_dic : dict str) (data : bytes) :
  bit_table huffman_dic → ¬ covered huffman_dic data →
  ∃ pre x post,
    data = pre ++ x :: post ∧ covered huffman_dic pre ∧
    dict_get huffman_dic (int_to_bytes x) = None ∧
    encode data huffman_dic = Raise (KeyError (int_to_bytes x)).
Proof.
  intros Ht Hn.
  destruct (first_missing huffman_dic data Hn) as (pre & x & post & -> & Hpre & Hx).
  exists pre, x, post. split_and!; [done..|].
  unfold encode. rewrite encode_loop_missing; [done..|constructor].
Qed.

Lemma encode_unknown_symbol_witness :
  ∃ pre x post,
    [byte_of 0x4F; byte_of 0x56; byte_of 0x4F] = pre ++ x :: post ∧
    covered [([byte_of 0x4F], str_of "0")] pre ∧
    dict_get [([byte_of 0x4F], str_of "0")] (int_to_bytes x) = None ∧
    encode [byte_of 0x4F; byte_of 0x56; byte_of 0x4F] [([byte_of 0x4F], str_of "0")]
      = Raise (KeyError (int_to_bytes x)).
Proof.
  apply (encode_unknown_symbol [([byte_of 0x4F], str_of "0")] [byte_of 0x4F; byte_of 0x56; byte_of 0x4F]).
  - unfold bit_table, bit_str, is_bit. apply (bool_decide_unpack _). vm_compute. exact I.
  - unfold covered. apply (bool_decide_unpack _). vm_compute. exact I.
Defined.

(** ** [Node.decode] *)

(** C5. With a table of one entry whose key is a symbol, [Node.decode]
    assigns the placeholder entry to the dictionary it was given: after
    the call the caller's table has a second key. *)
Theorem decode_single_entry_assigns (x : byte) (c : str) (str_bytes : bytes) (padding : Z) :
  (decode str_bytes [(int_to_bytes x, c)] padding).1
  = [(int_to_bytes x, c); (OVO_key, OVO_code)].
Proof. unfold decode, decode_dict. cbn. by repeat case_decide. Qed.

(** C6, as the code has it. With the empty table [Node.decode] returns
    the empty byte string for every packed string and every padding, and
    raises nothing. *)
Theorem decode_empty_table (str_bytes : bytes) (padding : Z) :
  decode str_bytes [] padding = ([], Ok []).
Proof. done. Qed.

(** C6 as stated fails: a packed string of one byte against the empty
    table is answered with the empty output, not with an exception. *)
Lemma decode_empty_table_no_failure :
  [byte_of 0x40] ≠ [] ∧ ¬ ∃ e, (decode [byte_of 0x40] [] 5).2 = Raise e.
Proof. split; [done|]. intros [e He]. vm_compute in He. discriminate. Qed.

(** C10. For a non-empty table whose keys are symbols and a padding
    between 0 and the number of packed bits, the tree [Node.decode] builds
    is full and its root has children, and the call returns a byte string. *)
Theorem decode_walk_total (str_bytes : bytes) (huffman_dic : dict str) (padding : Z) :
  huffman_dic ≠ [] → symbol_keys huffman_dic →
  0 ≤ padding ≤ 8 * Z.of_nat (length str_bytes) →
  ∃ root write_buffer,
    rebuild (decode_dict huffman_dic) = Ok root ∧
    full root ∧ is_leaf root = false ∧
    decode str_bytes huffman_dic padding = (decode_dict huffman_dic, Ok write_buffer).
Proof.
  intros Hne Hsym _.
  destruct (decode_total str_bytes huffman_dic padding Hne Hsym)
    as (root & wb & Hroot & [Hfull Hin] & Hdec).
  by exists root, wb.
Qed.

Lemma decode_walk_total_witness :
  ∃ root write_buffer,
    rebuild (decode_dict [([byte_of 0x4F], str_of "0"); ([byte_of 0x56], str_of "1")]) = Ok root ∧
    full root ∧ is_leaf root = false ∧
    decode [byte_of 0x40] [([byte_of 0x4F], str_of "0"); ([byte_of 0x56], str_of "1")] 5
    = (decode_dict [([byte_of 0x4F], str_of "0"); ([byte_of 0x56], str_of "1")], Ok write_buffer).
Proof.
  apply (decode_walk_total [byte_of 0x40] [([byte_of 0x4F], str_of "0"); ([byte_of 0x56], str_of "1")] 5).
  - done.
  - unfold symbol_keys. apply (bool_decide_unpack _). vm_compute. exact I.
  - simpl. lia.
Defined.

(** C7, as the code has it. [Node.decode] does not check [padding]: for a
    table whose keys are symbols it returns a byte string whatever the
    padding is; the result is empty when [padding] is at least the number
    of packed bits, and a negative [padding] is treated as 0. *)
Theorem decode_padding_unchecked (str_bytes : bytes) (huffman_dic : dict str) (padding : Z) :
  symbol_keys huffman_dic →
  ∃ write_buffer,
    (decode str_bytes huffman_dic padding).2 = Ok write_buffer ∧
    (8 * Z.of_nat (length str_bytes) ≤ padding → write_buffer = []) ∧
    (padding < 0 →
     decode str_bytes huffman_dic padding = decode str_bytes huffman_dic 0).
Proof.
  intros Hsym. destruct (decide (huffman_dic = [])) as [->|Hne].
  { by exists []. }
  destruct (decode_total str_bytes huffman_dic padding Hne Hsym)
    as (root & wb & Hroot & Hw & Hdec).
  exists wb. split_and!.
  - by rewrite Hdec.
  - intros Hpad. unfold decode in Hdec.
    rewrite decide_False in Hdec by by destruct huffman_dic.
    rewrite Hroot in Hdec. cbn [bind] in Hdec.
    rewrite range8_nonpos in Hdec by lia. cbn in Hdec. by injection Hdec as <-.
  - intros Hpad. unfold decode.
    destruct (decide (length huffman_dic = 0%nat)) as [|_]; [done|].
    rewrite Hroot. cbn [bind]. f_equal. rewrite !walk_chunks_join.
    fold (unpack str_bytes).
    assert (Hlen := length_unpack str_bytes).
    assert (Hfull : ∀ n, 8 * Z.of_nat (length str_bytes) ≤ n →
                         slice_to (unpack str_bytes) n = unpack str_bytes).
    { intros n Hn. unfold slice_to. destruct (Z.ltb_spec n 0); [lia|].
      rewrite Z.min_r by lia. rewrite Nat2Z.id. by apply take_ge. }
    rewrite !Hfull by lia. rewrite !join_range8_ge by lia. done.
Qed.

Lemma decode_padding_unchecked_witness :
  ∃ write_buffer,
    (decode [byte_of 0x40] [([byte_of 0x4F], str_of "0"); ([byte_of 0x56], str_of "1")] 9).2 = Ok write_buffer ∧
    (8 * Z.of_nat (length [byte_of 0x40]) ≤ 9 → write_buffer = []) ∧
    (9 < 0 →
     decode [byte_of 0x40] [([byte_of 0x4F], str_of "0"); ([byte_of 0x56], str_of "1")] 9
     = decode [byte_of 0x40] [([byte_of 0x4F], str_of "0"); ([byte_of 0x56], str_of "1")] 0).
Proof.
  apply (decode_padding_unchecked [byte_of 0x40] [([byte_of 0x4F], str_of "0"); ([byte_of 0x56], str_of "1")] 9).
  unfold symbol_keys. apply (bool_decide_unpack _). vm_compute. exact I.
Defined.

(** C7 as stated fails: a padding of 9 for one packed byte, and a
    padding of -1, are not rejected. *)
Lemma decode_padding_not_rejected :
  ¬ (0 ≤ 9 ≤ 7) ∧ 8 * Z.of_nat (length [byte_of 0x40]) ≤ 9 ∧
  decode [byte_of 0x40] [([byte_of 0x4F], str_of "0"); ([byte_of 0x56], str_of "1")] 9
  = ([([byte_of 0x4F], str_of "0"); ([byte_of 0x56], str_of "1")], Ok []) ∧
  decode [byte_of 0x40] [([byte_of 0x4F], str_of "0"); ([byte_of 0x56], str_of "1")] (-1)
  = ([([byte_of 0x4F], str_of "0"); ([byte_of 0x56], str_of "1")],
     Ok [byte_of 0x4F; byte_of 0x56; byte_of 0x4F; byte_of 0x4F; byte_of 0x4F; byte_of 0x4F; byte_of 0x4F; byte_of 0x4F]).
Proof. split_and!; [lia|simpl; lia|by vm_compute..]. Qed.

(** ** Tables of one entry *)

(** A word of one, two or three digits [0]. *)
Definition short_zeros (c : str) : Prop :=
  c ≠ [] ∧ (length c ≤ 3)%nat ∧ Forall (λ ch, ch = "0"%char) c.

Lemma short_zeros_cases c :
  short_zeros c → c = str_of "0" ∨ c = str_of "00" ∨ c = str_of "000".
Proof.
  intros (Hne & Hlen & Hz).
  destruct c as [|c1 [|c2 [|c3 [|c4 c]]]]; [done| | | |simpl in Hlen; lia];
    repeat match goal with
           | H : Forall _ (_ :: _) |- _ => apply Forall_cons in H as [-> H]
           end; auto.
Qed.

Lemma rebuild_single k c :
  short_zeros c →
  rebuild [(k, c); (OVO_key, OVO_code)]
  = Ok (code_parent (leaf_node (k, c)) (leaf_node (OVO_key, OVO_code))).
Proof.
  intros Hc. unfold rebuild.
  assert (sort_by_code (leaf_node <$> [(k, c); (OVO_key, OVO_code)])
          = [] ++ [leaf_node (k, c); leaf_node (OVO_key, OVO_code)]) as ->.
  { by destruct (short_zeros_cases c Hc) as [-> | [-> | ->]]; vm_compute. }
  rewrite decode_loop_eq, decide_True by (simpl; lia).
  rewrite decode_body_app. cbn [bind app sort_by_code stable_sort foldr insort].
  by rewrite decode_loop_eq, decide_False by (simpl; lia).
Qed.

Lemma decode_dict_single k c :
  k ≠ OVO_key → decode_dict [(k, c)] = [(k, c); (OVO_key, OVO_code)].
Proof.
  intros Hne. unfold decode_dict. rewrite decide_True by done.
  simpl. by case_decide.
Qed.

(** With the real symbol as the left child of the root, every 0 bit emits it. *)
Lemma walk_left root k w items write_buffer :
  lchild root = Some (leaf_node (k, w)) →
  Forall (λ item, item = false) items →
  walk_bits root (root, write_buffer) items
  = Ok (root, write_buffer ++ mjoin ((λ _, k) <$> items)).
Proof.
  intros Hl Hitems. revert write_buffer.
  induction Hitems as [|item items -> _ IH]; intros wb.
  { cbn. by rewrite app_nil_r. }
  cbn [walk_bits walk_bit]. rewrite Hl. cbn [of_option bind is_leaf leaf_node lchild
    rchild value fst snd]. rewrite IH. cbn. by rewrite <-app_assoc.
Qed.

Lemma single_entry_same huffman_dic k c data :
  huffman_dic = [(k, c)] → covered huffman_dic data → data ≠ [] →
  ∃ x, k = int_to_bytes x ∧ Forall (λ y, y = x) data.
Proof.
  intros -> Hcov Hne. destruct data as [|x data]; [done|]. exists x.
  assert (∀ y, is_Some (dict_get [(k, c)] (int_to_bytes y)) → k = int_to_bytes y) as Hk.
  { intros y [w Hw]. simpl in Hw. by case_decide. }
  apply Forall_cons in Hcov as [Hx Hcov]. apply Hk in Hx. subst k.
  split; [done|]. constructor; [done|].
  eapply Forall_impl; [exact Hcov|]. intros y Hy. apply Hk in Hy. by injection Hy.
Qed.

(** Encoding a run of one symbol with a table of that symbol and decoding
    it again gives the symbol once for every digit of the run's code. *)
Lemma single_symbol_trip x c data :
  short_zeros c → Forall (λ y, y = x) data →
  ∃ packed padding,
    encode data [(int_to_bytes x, c)] = Ok (packed, padding) ∧
    decode packed [(int_to_bytes x, c)] padding
    = ([(int_to_bytes x, c); (OVO_key, OVO_code)],
       Ok (replicate (length data * length c) x)).
Proof.
  intros Hc Hdata. set (table := [(int_to_bytes x, c)]).
  assert (Hz : Forall (λ ch, ch = "0"%char) c) by apply Hc.
  assert (Hcode : ∀ y, y = x → code_of table y = c).
  { intros y ->. unfold code_of, table. cbn. by rewrite decide_True. }
  destruct (encode_spec table data) as (packed & padding & He & Hp & Hbits).
  { repeat constructor. cbn. eapply Forall_impl; [exact Hz|]. intros ? ->. by left. }
  { eapply Forall_impl; [exact Hdata|]. intros y ->. cbn. rewrite decide_True by done.
    by eexists. }
  exists packed, padding. split; [done|].
  rewrite (decode_encoded table data) by (done || lia).
  unfold table at 1 2. rewrite decode_dict_single by done. f_equal.
  rewrite rebuild_single by done. cbn [bind].
  assert (Hfalse : Forall (λ item, item = false) (bits_of (stream table data))).
  { unfold stream, bits_of. apply Forall_fmap, Forall_join, Forall_fmap.
    eapply Forall_impl; [exact Hdata|]. intros y Hy. unfold compose.
    rewrite (Hcode y Hy). eapply Forall_impl; [exact Hz|]. by intros ? ->. }
  rewrite (walk_left (code_parent (leaf_node (int_to_bytes x, c))
                        (leaf_node (OVO_key, OVO_code)))
             (int_to_bytes x) c _ _ eq_refl Hfalse).
  cbn [bind]. f_equal. cbn [app].
  clear Hbits He Hfalse. induction Hdata as [|y data Hy _ IH]; [done|].
  change (stream table (y :: data)) with (code_of table y ++ stream table data).
  rewrite bits_of_app, fmap_app, join_app, IH, (Hcode y Hy).
  cbn [length Nat.mul]. rewrite replicate_add. f_equal.
  clear. unfold bits_of. induction c as [|ch c IH]; [done|]. cbn. f_equal. apply IH.
Qed.

(** C9, as the code has it. For a table of one entry whose code word is
    one, two or three digits [0] (as the word [0] that [Node.build] gives a
    lone symbol) and a run of that symbol, decoding what [Node.encode]
    returns emits that symbol only, and exactly the run when the word is
    [0]; the placeholder key is three bytes long, so it is no symbol. *)
Theorem decode_single_symbol (x : byte) (c : str) (data : bytes) :
  short_zeros c → Forall (λ y, y = x) data →
  ∃ packed padding write_buffer,
    encode data [(int_to_bytes x, c)] = Ok (packed, padding) ∧
    decode packed [(int_to_bytes x, c)] padding
    = ([(int_to_bytes x, c); (OVO_key, OVO_code)], Ok write_buffer) ∧
    Forall (λ y, y = x) write_buffer ∧
    (c = ["0"%char] → write_buffer = data) ∧
    ∀ y, OVO_key ≠ int_to_bytes y.
Proof.
  intros Hc Hdata.
  destruct (single_symbol_trip x c data Hc Hdata) as (packed & padding & He & Hd).
  exists packed, padding, (replicate (length data * length c) x).
  split_and!; [done..| | |done].
  - apply Forall_replicate. done.
  - intros ->. cbn [length]. rewrite Nat.mul_1_r.
    clear -Hdata. induction Hdata as [|y data -> _ IH]; [done|].
    cbn. by rewrite IH.
Qed.

Lemma decode_single_symbol_witness :
  ∃ packed padding write_buffer,
    encode (replicate 5 (byte_of 0x41)) [(int_to_bytes (byte_of 0x41), str_of "0")]
      = Ok (packed, padding) ∧
    decode packed [(int_to_bytes (byte_of 0x41), str_of "0")] padding
    = ([(int_to_bytes (byte_of 0x41), str_of "0"); (OVO_key, OVO_code)], Ok write_buffer) ∧
    Forall (λ y, y = byte_of 0x41) write_buffer ∧
    (str_of "0" = ["0"%char] → write_buffer = replicate 5 (byte_of 0x41)) ∧
    ∀ y, OVO_key ≠ int_to_bytes y.
Proof.
  apply (decode_single_symbol (byte_of 0x41) (str_of "0") (replicate 5 (byte_of 0x41))).
  - split_and!; [done|simpl; lia|by repeat constructor].
  - by repeat constructor.
Defined.

(** C9 as stated fails: with the one-entry table that gives the symbol
    the word [1], the encoded run of one symbol is decoded to the three
    bytes of the placeholder. *)
Lemma decode_single_symbol_placeholder :
  encode [byte_of 0x41] [([byte_of 0x41], str_of "1")] = Ok ([byte_of 0x80], 7) ∧
  (decode [byte_of 0x80] [([byte_of 0x41], str_of "1")] 7).2 = Ok OVO_key ∧
  ¬ Forall (λ y, y = byte_of 0x41) OVO_key.
Proof.
  split_and!; [by vm_compute..|].
  intros H. apply Forall_cons in H as [H _]. discriminate.
Qed.

(** ** The round trip *)

Lemma covered_nil data : covered [] data → data = [].
Proof.
  destruct data as [|x data]; [done|].
  intros [[w Hw] _]%Forall_cons. discriminate.
Qed.

(** C1. For the table [Node.build] makes of a frequency dictionary and a
    byte string whose bytes are all keys of that table, [Node.encode]
    returns a packed string and a padding from which [Node.decode], with
    the same table, returns the byte string. *)
Theorem round_trip (fre_dic : dict Z) (table : dict str) (data : bytes) :
  NoDup (keys fre_dic) → build fre_dic = Ok table → covered table data →
  ∃ packed padding,
    encode data table = Ok (packed, padding) ∧
    decode packed table padding = (decode_dict table, Ok data).
Proof.
  intros Hnd Hbuild Hcov.
  destruct fre_dic as [|[k w] [|kw fre_dic]].
  - (* no symbol *)
    injection Hbuild as <-. apply covered_nil in Hcov as ->. by exists [], 0.
  - (* one symbol *)
    injection Hbuild as <-. destruct (decide (data = [])) as [->|Hne].
    + exists [], 0. split; [done|].
      destruct (rebuild_full (decode_dict [(k, ["0"%char])])) as (root & Hroot & _).
      { unfold decode_dict. cbn. by repeat case_decide. }
      rewrite (decode_encoded _ []) by done. by rewrite Hroot.
    + destruct (single_entry_same _ k ["0"%char] data eq_refl Hcov Hne)
        as (x & -> & Hsame).
      destruct (single_symbol_trip x ["0"%char] data) as (packed & padding & He & Hd);
        [by split_and!; [|simpl; lia|repeat constructor]|done|].
      exists packed, padding. split; [done|]. rewrite Hd, decode_dict_single by done.
      cbn [length]. rewrite Nat.mul_1_r. do 2 f_equal.
      clear -Hsame. induction Hsame as [|y data -> _ IH]; [done|]. cbn. by rewrite IH.
  - (* two symbols or more *)
    destruct (build_spec _ Hnd) as (table' & tl & tr & Hb & Hk & Hperm & Hlv);
      [simpl; lia|].
    rewrite Hbuild in Hb. injection Hb as <-.
    assert (Hlen : (2 ≤ length table)%nat).
    { apply (f_equal length) in Hk. unfold keys in Hk. rewrite !length_fmap in Hk.
      rewrite Hk. simpl. lia. }
    destruct (encode_spec table data) as (packed & padding & He & Hp & Hbits); [|done|].
    { unfold bit_table. rewrite Hperm. apply Forall_forall. intros [k' c] Hin.
      eapply codes_bit_str; [|exact Hin]. constructor. }
    exists packed, padding. split; [done|].
    rewrite (decode_encoded table data) by (done || lia || by destruct table).
    assert (Hdict : decode_dict table = table).
    { unfold decode_dict. rewrite decide_False; [done|lia]. }
    rewrite Hdict. f_equal.
    destruct (rebuild_shape table (Br tl tr) Hperm) as (root & -> & Hshape).
    cbn [bind]. rewrite (walk_stream root table tl tr) by
      (done || by apply covered_coded_by).
    done.
Qed.

Lemma round_trip_witness :
  ∃ packed padding,
    encode [byte_of 0x4F; byte_of 0x56; byte_of 0x4F] [([byte_of 0x4F], str_of "0"); ([byte_of 0x56], str_of "1")]
      = Ok (packed, padding) ∧
    decode packed [([byte_of 0x4F], str_of "0"); ([byte_of 0x56], str_of "1")] padding
    = (decode_dict [([byte_of 0x4F], str_of "0"); ([byte_of 0x56], str_of "1")],
       Ok [byte_of 0x4F; byte_of 0x56; byte_of 0x4F]).
Proof.
  apply (round_trip [([byte_of 0x4F], 2); ([byte_of 0x56], 1)]).
  - apply (bool_decide_unpack _). vm_compute. exact I.
  - vm_compute. reflexivity.
  - unfold covered. apply (bool_decide_unpack _). vm_compute. exact I.
Defined.

(** * Further properties of the module *)

(** ** [bytes_fre] *)

Example bytes_fre_OVO :
  bytes_fre [byte_of 0x4F; byte_of 0x56; byte_of 0x4F]
  = Ok [([byte_of 0x4F], 2); ([byte_of 0x56], 1)].
Proof. vm_compute. reflexivity. Qed.

(** How often a byte occurs in a byte string. *)
Definition occurrences (x : byte) (data : bytes) : Z :=
  Z.of_nat (length (filter (λ y, y = x) data)).

Lemma occurrences_cons x item data :
  occurrences x (item :: data)
  = (if decide (item = x) then 1 else 0) + occurrences x data.
Proof.
  unfold occurrences. rewrite filter_cons. case_decide; cbn [length]; lia.
Qed.

Lemma occurrences_pos x data : 0 < occurrences x data ↔ x ∈ data.
Proof.
  induction data as [|item data IH].
  { split; [unfold occurrences; cbn; lia|by intros ?%elem_of_nil]. }
  rewrite occurrences_cons, elem_of_cons.
  assert (0 ≤ occurrences x data) by (unfold occurrences; lia).
  case_decide; subst; [intuition lia|]. rewrite Z.add_0_l, IH. intuition congruence.
Qed.

(** The list [fre_dic] holds the count [f x] at the index of every byte [x]. *)
Definition counts (fre_dic : list Z) (f : byte → Z) : Prop :=
  length fre_dic = 256%nat ∧ ∀ x, fre_dic !! Byte.to_nat x = Some (f x).

Lemma to_nat_lt x : (Byte.to_nat x < 256)%nat.
Proof. pose proof (Byte.to_nat_bounded x). lia. Qed.

Lemma to_nat_inj x y : Byte.to_nat x = Byte.to_nat y → x = y.
Proof.
  intros H. apply (inj Some). by rewrite <-(Byte.of_to_nat x), <-(Byte.of_to_nat y), H.
Qed.

Lemma count_loop_spec data fre_dic f :
  counts fre_dic f →
  ∃ fre_dic', count_loop data fre_dic = Ok fre_dic' ∧
    counts fre_dic' (λ x, f x + occurrences x data).
Proof.
  revert fre_dic f. induction data as [|item data IH]; intros fre f [Hlen Hf].
  { exists fre. split; [done|]. split; [done|]. intros x.
    rewrite Hf. unfold occurrences. cbn. f_equal. lia. }
  cbn [count_loop]. unfold count_item, list_item, list_assign.
  rewrite Hf. cbn [of_option bind].
  rewrite decide_True by (rewrite Hlen; apply to_nat_lt). cbn [bind].
  destruct (IH (<[Byte.to_nat item:=f item + 1]> fre)
              (λ x, f x + if decide (item = x) then 1 else 0))
    as (fre' & -> & Hlen' & Hf').
  { split; [by rewrite length_insert|]. intros x. case_decide as E.
    - subst. apply list_lookup_insert_eq. rewrite Hlen. apply to_nat_lt.
    - rewrite list_lookup_insert_ne; [by rewrite Hf, Z.add_0_r|].
      intros E'. by apply to_nat_inj in E'. }
  exists fre'. split; [done|]. split; [done|]. intros x.
  rewrite Hf', occurrences_cons. f_equal. lia.
Qed.

(** The entry of a byte value, if the byte occurs. *)
Definition fre_entry (f : byte → Z) (x : nat) : option (bytes * Z) :=
  match Byte.of_nat x with
  | Some k => if decide (f k = 0) then None else Some (int_to_bytes k, f k)
  | None => None
  end.

Lemma dict_set_fresh {V} (d : dict V) k v : k ∉ keys d → dict_set d k v = d ++ [(k, v)].
Proof.
  unfold keys. induction d as [|[k' v'] d IH]; intros Hk; [done|].
  simpl in *. apply not_elem_of_cons in Hk as [Hne Hk].
  rewrite decide_False by done. by rewrite IH.
Qed.

Lemma fre_entries_spec fre_dic f xs d :
  counts fre_dic f → NoDup xs → Forall (λ x, x < 256)%nat xs →
  (∀ k, int_to_bytes k ∈ keys d → Byte.to_nat k ∉ xs) →
  fre_entries fre_dic xs d = Ok (d ++ omap (fre_entry f) xs).
Proof.
  intros [Hlen Hf]. revert d. induction xs as [|x xs IH]; intros d Hnd Hlt Hfresh.
  { cbn. by rewrite app_nil_r. }
  apply NoDup_cons in Hnd as [Hx Hnd]. apply Forall_cons in Hlt as [Hx256 Hlt].
  destruct (Byte.of_nat x) as [k|] eqn:Hk; [|apply Byte.of_nat_None_iff in Hk; lia].
  pose proof (Byte.to_of_nat _ Hk) as Hkx.
  cbn [fre_entries omap list_omap]. unfold list_item, fre_entry at 1.
  rewrite <-Hkx, Hf, Hkx, Hk. cbn [of_option bind].
  destruct (decide (f k = 0)) as [Hz|Hnz].
  { apply IH; [done..|]. intros k' Hk'. specialize (Hfresh _ Hk').
    by apply not_elem_of_cons in Hfresh as [_ ?]. }
  unfold int_to_bytes_int. rewrite Hk. cbn [of_option bind].
  rewrite dict_set_fresh.
  - rewrite IH; [by rewrite <-app_assoc|done..|].
    intros k'. unfold keys. rewrite fmap_app, elem_of_app. intros [Hk'|Hk'].
    + specialize (Hfresh _ Hk'). by apply not_elem_of_cons in Hfresh as [_ ?].
    + apply list_elem_of_singleton in Hk'. injection Hk' as ->. by rewrite Hkx.
  - intros Hin. apply (Hfresh k) in Hin. apply Hin. rewrite Hkx. left.
Qed.

(** What [bytes_fre] returns: the bytes that occur, in increasing order,
    each with the number of its occurrences. *)
Lemma bytes_fre_spec data :
  bytes_fre data = Ok (omap (fre_entry (λ x, occurrences x data)) (seq 0 256)).
Proof.
  unfold bytes_fre.
  destruct (count_loop_spec data (replicate 256 0) (λ _, 0)) as (fre & -> & Hfre).
  { split; [by rewrite length_replicate|]. intros x.
    apply lookup_replicate_2, to_nat_lt. }
  cbn [bind]. rewrite (fre_entries_spec fre (λ x, occurrences x data)).
  - done.
  - destruct Hfre as [? Hf]. split; [done|]. intros x. by rewrite Hf.
  - apply NoDup_seq.
  - apply Forall_forall. intros x Hx%elem_of_seq. lia.
  - intros k Hk. by apply elem_of_nil in Hk.
Qed.

Lemma fre_entry_elem_of f (xs : list nat) k n :
  (k, n) ∈ omap (fre_entry f) xs ↔
  ∃ x, k = int_to_bytes x ∧ Byte.to_nat x ∈ xs ∧ n = f x ∧ f x ≠ 0.
Proof.
  rewrite list_elem_of_omap. unfold fre_entry. split.
  - intros (i & Hi & He). destruct (Byte.of_nat i) as [x|] eqn:Hx; [|done].
    case_decide; [done|]. injection He as <- <-. exists x.
    by rewrite (Byte.to_of_nat _ Hx).
  - intros (x & -> & Hx & -> & Hnz). exists (Byte.to_nat x). split; [done|].
    rewrite Byte.of_to_nat. by rewrite decide_False.
Qed.

Lemma fre_entry_keys_NoDup f (xs : list nat) : NoDup xs → NoDup (keys (omap (fre_entry f) xs)).
Proof.
  unfold keys. induction 1 as [|x xs Hx Hnd IH]; [constructor|].
  cbn [omap list_omap]. destruct (fre_entry f x) as [[k n]|] eqn:He; [|done].
  cbn. constructor; [|done]. intros Hin.
  apply list_elem_of_fmap in Hin as ([k' n'] & Hk & Hin). simpl in Hk. subst k'.
  apply fre_entry_elem_of in Hin as (y & -> & Hy & _).
  unfold fre_entry in He. destruct (Byte.of_nat x) as [z|] eqn:Hz; [|done].
  destruct (decide (f z = 0)); [done|]. unfold int_to_bytes in He.
  assert (z = y) as -> by congruence.
  apply Hx. by rewrite <-(Byte.to_of_nat _ Hz).
Qed.

(** The sum of the counts of a frequency dictionary. *)
Definition total_count (fre_dic : dict Z) : Z := foldr (λ kn acc, kn.2 + acc) 0 fre_dic.

Lemma total_count_entries f (xs : list nat) :
  total_count (omap (fre_entry f) xs)
  = foldr (λ x acc, from_option f 0 (Byte.of_nat x) + acc) 0 xs.
Proof.
  induction xs as [|x xs IH]; [done|].
  cbn [omap list_omap foldr]. rewrite <-IH. unfold fre_entry.
  destruct (Byte.of_nat x) as [k|]; [|done]. cbn [from_option].
  case_decide as E; [by rewrite E|done].
Qed.

Lemma sum_indicator item (xs : list nat) :
  NoDup xs →
  foldr (λ x acc, from_option (λ k, if decide (item = k) then 1 else 0) 0
                    (Byte.of_nat x) + acc) 0 xs
  = if decide (Byte.to_nat item ∈ xs) then 1 else 0.
Proof.
  induction 1 as [|x xs Hx Hnd IH].
  { rewrite decide_False; [done|apply not_elem_of_nil]. }
  cbn [foldr]. rewrite IH. clear IH.
  destruct (Byte.of_nat x) as [k|] eqn:Hk; cbn [from_option].
  - apply Byte.to_of_nat in Hk. subst x. destruct (decide (item = k)) as [->|Hne].
    + rewrite decide_False by done. rewrite decide_True by left. done.
    + assert (Byte.to_nat item ≠ Byte.to_nat k) by (by intros ?%to_nat_inj).
      destruct (decide (Byte.to_nat item ∈ xs)).
      * by rewrite decide_True by by right.
      * rewrite decide_False; [done|]. by apply not_elem_of_cons.
  - assert (Byte.to_nat item ≠ x).
    { intros <-. by rewrite Byte.of_to_nat in Hk. }
    destruct (decide (Byte.to_nat item ∈ xs)).
    * by rewrite decide_True by by right.
    * rewrite decide_False; [done|]. by apply not_elem_of_cons.
Qed.

Lemma sum_occurrences data (xs : list nat) :
  NoDup xs → Forall (λ item, Byte.to_nat item ∈ xs) data →
  foldr (λ x acc, from_option (λ k, occurrences k data) 0 (Byte.of_nat x) + acc) 0 xs
  = Z.of_nat (length data).
Proof.
  intros Hnd. induction 1 as [|item data Hitem _ IH].
  { clear. induction xs as [|x xs IH]; [done|]. cbn [foldr]. rewrite IH.
    by destruct (Byte.of_nat x). }
  cbn [length]. rewrite Nat2Z.inj_succ, <-IH, <-Z.add_1_l.
  rewrite <-(decide_True (A:=Z) 1 0 Hitem), <-(sum_indicator item xs Hnd).
  clear. induction xs as [|x xs IH]; [done|]. cbn [foldr]. rewrite IH.
  destruct (Byte.of_nat x) as [k|]; cbn [from_option]; [|lia].
  rewrite occurrences_cons. lia.
Qed.

(** X1. [bytes_fre] returns a dictionary whose keys are distinct one-byte
    strings, and the one-byte string of a byte is a key exactly when the
    byte occurs in the input. *)
Theorem bytes_fre_keys (bytes_str : bytes) :
  ∃ fre_dic,
    bytes_fre bytes_str = Ok fre_dic ∧ NoDup (keys fre_dic) ∧
    symbol_keys fre_dic ∧
    ∀ x, int_to_bytes x ∈ keys fre_dic ↔ x ∈ bytes_str.
Proof.
  eexists. split; [apply bytes_fre_spec|]. split_and!.
  - apply fre_entry_keys_NoDup, NoDup_seq.
  - apply Forall_forall. intros [k n] (x & -> & _)%fre_entry_elem_of. done.
  - intros x. unfold keys. rewrite list_elem_of_fmap. split.
    + intros ([k n] & Hk & (y & -> & _ & _ & Hnz)%fre_entry_elem_of).
      simpl in Hk. injection Hk as ->. apply occurrences_pos.
      assert (0 ≤ occurrences y bytes_str) by (unfold occurrences; lia). lia.
    + intros Hx%occurrences_pos. exists (int_to_bytes x, occurrences x bytes_str).
      split; [done|]. apply fre_entry_elem_of. exists x. split_and!; [done| |done|lia].
      apply elem_of_seq. pose proof (to_nat_lt x). lia.
Qed.

(** X2. In the dictionary [bytes_fre] returns, a byte that occurs is
    mapped to the number of its occurrences and a byte that does not occur
    has no entry; every count is positive and the counts add up to the
    length of the input. *)
Theorem bytes_fre_counts (bytes_str : bytes) :
  ∃ fre_dic,
    bytes_fre bytes_str = Ok fre_dic ∧
    (∀ x, dict_get fre_dic (int_to_bytes x)
          = if decide (x ∈ bytes_str) then Some (occurrences x bytes_str) else None) ∧
    (∀ k n, (k, n) ∈ fre_dic → 0 < n) ∧
    total_count fre_dic = Z.of_nat (length bytes_str).
Proof.
  eexists. split; [apply bytes_fre_spec|].
  set (f := λ x, occurrences x bytes_str).
  assert (Hnn : ∀ x, 0 ≤ f x) by (intros x; unfold f, occurrences; lia).
  split_and!.
  - intros x. destruct (decide (x ∈ bytes_str)) as [Hx|Hx].
    + apply dict_get_NoDup; [apply fre_entry_keys_NoDup, NoDup_seq|].
      apply fre_entry_elem_of. exists x. apply occurrences_pos in Hx.
      split_and!; [done| |done|unfold f; lia].
      apply elem_of_seq. pose proof (to_nat_lt x). lia.
    + destruct (dict_get _ _) as [n|] eqn:Hget; [|done].
      apply dict_get_elem_of, fre_entry_elem_of in Hget as (y & Hy & _ & _ & Hnz).
      injection Hy as <-. destruct Hx. apply occurrences_pos.
      specialize (Hnn x). unfold f in *. lia.
  - intros k n (x & _ & _ & -> & Hnz)%fre_entry_elem_of. specialize (Hnn x). lia.
  - rewrite total_count_entries. apply sum_occurrences; [apply NoDup_seq|].
    apply Forall_forall. intros x _. apply elem_of_seq. pose proof (to_nat_lt x). lia.
Qed.

(** ** [Node.build], [Node.encode] and [Node.decode] together *)

Lemma codes_length t p : length (codes t p) = length (leaves t).
Proof. by rewrite <-(codes_keys t p), length_fmap. Qed.

Lemma leaves_length t : (1 ≤ length (leaves t))%nat.
Proof. induction t; simpl; [lia|]. rewrite length_app. lia. Qed.

(** [build] returns a table for every dictionary, with the same keys. *)
Lemma build_total fre_dic :
  NoDup (keys fre_dic) →
  ∃ table, build fre_dic = Ok table ∧ keys table = keys fre_dic.
Proof.
  intros Hnd. destruct fre_dic as [|[k w] [|kw fre_dic]].
  - by exists [].
  - by exists [(k, ["0"%char])].
  - destruct (build_spec _ Hnd) as (table & tl & tr & Hb & Hk & _); [simpl; lia|].
    by exists table.
Qed.

(** The round trip with the table of a code tree. *)
Lemma tree_table_trip huffman_dic tl tr data :
  huffman_dic ≡ₚ codes (Br tl tr) [] → covered huffman_dic data →
  ∃ packed padding,
    encode data huffman_dic = Ok (packed, padding) ∧
    decode packed huffman_dic padding = (huffman_dic, Ok data).
Proof.
  intros Hperm Hcov.
  assert (Hlen : (2 ≤ length huffman_dic)%nat).
  { rewrite Hperm. simpl. rewrite length_app, !codes_length.
    pose proof (leaves_length tl). pose proof (leaves_length tr). lia. }
  destruct (encode_spec huffman_dic data) as (packed & padding & He & Hp & Hbits);
    [|done|].
  { unfold bit_table. rewrite Hperm. apply Forall_forall. intros [k' c] Hin.
    eapply codes_bit_str; [|exact Hin]. constructor. }
  exists packed, padding. split; [done|].
  assert (Hne : huffman_dic ≠ []) by (intros ->; simpl in Hlen; lia).
  rewrite (decode_encoded huffman_dic data) by (done || lia).
  assert (Hdict : decode_dict huffman_dic = huffman_dic).
  { unfold decode_dict. rewrite decide_False; [done|lia]. }
  rewrite Hdict. f_equal.
  destruct (rebuild_shape huffman_dic (Br tl tr) Hperm) as (root & -> & Hshape).
  cbn [bind]. rewrite (walk_stream root huffman_dic tl tr) by
    (done || by apply covered_coded_by).
  done.
Qed.

(** The round trip with a table of [build], whatever the number of symbols. *)
Lemma build_trip fre_dic table data :
  NoDup (keys fre_dic) → build fre_dic = Ok table → covered table data →
  ∃ packed padding,
    encode data table = Ok (packed, padding) ∧
    (decode packed table padding).2 = Ok data.
Proof.
  intros Hnd Hbuild Hcov.
  destruct fre_dic as [|[k w] [|kw fre_dic]].
  - injection Hbuild as <-. apply covered_nil in Hcov as ->. by exists [], 0.
  - injection Hbuild as <-. destruct (decide (data = [])) as [->|Hne].
    + exists [], 0. split; [done|].
      destruct (rebuild_full (decode_dict [(k, ["0"%char])])) as (root & Hroot & _).
      { unfold decode_dict. cbn. by repeat case_decide. }
      rewrite (decode_encoded _ []) by done. cbn [snd]. by rewrite Hroot.
    + destruct (single_entry_same _ k ["0"%char] data eq_refl Hcov Hne)
        as (x & -> & Hsame).
      destruct (single_symbol_trip x ["0"%char] data) as (packed & padding & He & Hd);
        [by split_and!; [|simpl; lia|repeat constructor]|done|].
      exists packed, padding. split; [done|]. rewrite Hd. cbn [snd length].
      rewrite Nat.mul_1_r. f_equal.
      clear -Hsame. induction Hsame as [|y data -> _ IH]; [done|]. cbn. by rewrite IH.
  - destruct (build_spec _ Hnd) as (table' & tl & tr & Hb & Hk & Hperm & Hlv);
      [simpl; lia|].
    rewrite Hbuild in Hb. injection Hb as <-.
    destruct (tree_table_trip table tl tr data Hperm Hcov) as (packed & padding & He & Hd).
    exists packed, padding. by rewrite Hd.
Qed.

(** X3. [Node.build] returns a table for every frequency dictionary
    (whatever the integer weights are), and the table has exactly the keys
    of the dictionary, in the same order. *)
Theorem build_keys (fre_dic : dict Z) :
  NoDup (keys fre_dic) →
  ∃ table, build fre_dic = Ok table ∧ keys table = keys fre_dic ∧ NoDup (keys table).
Proof.
  intros Hnd. destruct (build_total fre_dic Hnd) as (table & Hb & Hk).
  exists table. split_and!; [done..|]. by rewrite Hk.
Qed.

Lemma build_keys_witness :
  ∃ table,
    build [([byte_of 0x4F], 2); ([byte_of 0x56], -1); ([byte_of 0x41], 0)] = Ok table ∧
    keys table = keys [([byte_of 0x4F], 2); ([byte_of 0x56], -1); ([byte_of 0x41], 0)] ∧
    NoDup (keys table).
Proof.
  apply (build_keys [([byte_of 0x4F], 2); ([byte_of 0x56], -1); ([byte_of 0x41], 0)]).
  apply (bool_decide_unpack _). vm_compute. exact I.
Defined.

(** X4. The round trip holds for every table that lists the code words of
    a code tree (the paths to the leaves of a binary tree in which every
    inner node has two children), whether [Node.build] made it or not, and
    [Node.decode] leaves such a table as it was. *)
Theorem tree_table_round_trip (huffman_dic : dict str) (tl tr : tree) (data : bytes) :
  huffman_dic ≡ₚ codes (Br tl tr) [] → covered huffman_dic data →
  ∃ packed padding,
    encode data huffman_dic = Ok (packed, padding) ∧
    decode packed huffman_dic padding = (huffman_dic, Ok data).
Proof. intros Hperm Hcov. by apply (tree_table_trip huffman_dic tl tr). Qed.

Lemma tree_table_round_trip_witness :
  ∃ packed padding,
    encode [byte_of 0x43; byte_of 0x41; byte_of 0x42; byte_of 0x43]
      [([byte_of 0x43], str_of "1"); ([byte_of 0x41], str_of "00");
       ([byte_of 0x42], str_of "01")]
    = Ok (packed, padding) ∧
    decode packed
      [([byte_of 0x43], str_of "1"); ([byte_of 0x41], str_of "00");
       ([byte_of 0x42], str_of "01")] padding
    = ([([byte_of 0x43], str_of "1"); ([byte_of 0x41], str_of "00");
        ([byte_of 0x42], str_of "01")],
       Ok [byte_of 0x43; byte_of 0x41; byte_of 0x42; byte_of 0x43]).
Proof.
  apply (tree_table_round_trip _
           (Br (Leaf [byte_of 0x41]) (Leaf [byte_of 0x42])) (Leaf [byte_of 0x43])).
  - simpl. apply (Permutation_cons_append [_; _]).
  - unfold covered. apply (bool_decide_unpack _). vm_compute. exact I.
Defined.

(** X5. With a table of [Node.build], [Node.encode] is injective on the
    byte strings the table covers: two of them with the same packed bytes
    and the same padding are equal. *)
Theorem encode_injective (fre_dic : dict Z) (table : dict str) (data1 data2 : bytes) :
  NoDup (keys fre_dic) → build fre_dic = Ok table →
  covered table data1 → covered table data2 →
  encode data1 table = encode data2 table → data1 = data2.
Proof.
  intros Hnd Hb Hc1 Hc2 Heq.
  destruct (build_trip fre_dic table data1 Hnd Hb Hc1) as (p1 & n1 & He1 & Hd1).
  destruct (build_trip fre_dic table data2 Hnd Hb Hc2) as (p2 & n2 & He2 & Hd2).
  rewrite He1, He2 in Heq. injection Heq as -> ->. congruence.
Qed.

Lemma encode_injective_witness :
  [byte_of 0x4F; byte_of 0x56] = [byte_of 0x4F; byte_of 0x56].
Proof.
  apply (encode_injective [([byte_of 0x4F], 2); ([byte_of 0x56], 1)]
           [([byte_of 0x4F], str_of "0"); ([byte_of 0x56], str_of "1")]).
  - apply (bool_decide_unpack _). vm_compute. exact I.
  - vm_compute. reflexivity.
  - unfold covered. apply (bool_decide_unpack _). vm_compute. exact I.
  - unfold covered. apply (bool_decide_unpack _). vm_compute. exact I.
  - reflexivity.
Defined.

(** X6. The whole pipeline: for every byte string, [bytes_fre] gives a
    frequency dictionary, [Node.build] a table of it, [Node.encode] packs
    the string with the table, and [Node.decode] returns the string. *)
Theorem compress_round_trip (bytes_str : bytes) :
  ∃ fre_dic table packed padding,
    bytes_fre bytes_str = Ok fre_dic ∧ build fre_dic = Ok table ∧
    encode bytes_str table = Ok (packed, padding) ∧
    (decode packed table padding).2 = Ok bytes_str.
Proof.
  set (fre := omap (fre_entry (λ x, occurrences x bytes_str)) (seq 0 256)).
  assert (Hnd : NoDup (keys fre)) by apply fre_entry_keys_NoDup, NoDup_seq.
  destruct (build_total fre Hnd) as (table & Hb & Hk).
  assert (Hcov : covered table bytes_str).
  { apply Forall_forall. intros x Hx.
    destruct (dict_get table (int_to_bytes x)) as [c|] eqn:Hget; [by eexists|].
    exfalso. revert Hget. clear -Hx Hk.
    assert (int_to_bytes x ∈ keys table) as Hin.
    { rewrite Hk. unfold keys. apply list_elem_of_fmap.
      exists (int_to_bytes x, occurrences x bytes_str). split; [done|].
      apply fre_entry_elem_of. exists x. apply occurrences_pos in Hx.
      split_and!; [done| |done|lia].
      apply elem_of_seq. pose proof (to_nat_lt x). lia. }
    clear Hk. unfold keys in Hin. induction table as [|[k c] table IH]; simpl.
    { by apply elem_of_nil in Hin. }
    case_decide; [done|]. apply IH. simpl in Hin.
    by apply elem_of_cons in Hin as [?|?]. }
  destruct (build_trip fre table bytes_str Hnd Hb Hcov) as (packed & padding & He & Hd).
  exists fre, table, packed, padding. split_and!; [apply bytes_fre_spec|done..].
Qed.

(** ** The code words of [Node.build] *)

Lemma codes_depth t p k c :
  (k, c) ∈ codes t p → (length c + 1 ≤ length p + length (leaves t))%nat.
Proof.
  revert p. induction t as [k'|l IHl r IHr]; intros p; simpl.
  - intros [= -> ->]%list_elem_of_singleton. lia.
  - rewrite length_app. pose proof (leaves_length l). pose proof (leaves_length r).
    intros [Hin|Hin]%elem_of_app.
    + apply IHl in Hin. rewrite length_app in Hin. simpl in Hin. lia.
    + apply IHr in Hin. rewrite length_app in Hin. simpl in Hin. lia.
Qed.

(** X7. The code words [Node.build] gives to [n >= 2] symbols have at
    least one and at most [n - 1] digits. *)
Theorem build_code_length (fre_dic : dict Z) (table : dict str) :
  NoDup (keys fre_dic) → (2 ≤ length fre_dic)%nat → build fre_dic = Ok table →
  Forall (λ kc, 1 ≤ length kc.2 ≤ length fre_dic - 1)%nat table.
Proof.
  intros Hnd Hlen Hb. apply Forall_forall. intros [k c] Hin.
  destruct (build_spec fre_dic Hnd Hlen) as (table' & tl & tr & Hb' & Hk & Hperm & Hlv).
  rewrite Hb in Hb'. injection Hb' as <-. rewrite Hperm in Hin.
  pose proof (codes_nonempty _ _ _ _ Hin) as Hne.
  pose proof (codes_depth _ _ _ _ Hin) as Hd.
  assert (length (leaves (Br tl tr)) = length fre_dic) as Hl.
  { rewrite <-(codes_length _ []), <-Hperm.
    apply (f_equal length) in Hk. unfold keys in Hk. by rewrite !length_fmap in Hk. }
  rewrite Hl in Hd. simpl in Hd. destruct c; [done|]. simpl in *. lia.
Qed.

Lemma build_code_length_witness :
  Forall (λ kc, 1 ≤ length kc.2
                ≤ length [([byte_of 0x4F], 2); ([byte_of 0x56], 1)] - 1)%nat
    [([byte_of 0x4F], str_of "0"); ([byte_of 0x56], str_of "1")].
Proof.
  apply (build_code_length [([byte_of 0x4F], 2); ([byte_of 0x56], 1)]).
  - apply (bool_decide_unpack _). vm_compute. exact I.
  - simpl. lia.
  - vm_compute. reflexivity.
Defined.

(** The share of the code space the words of a table take, counted in
    words of [D] digits. *)
Definition kraft_sum (D : nat) (huffman_dic : dict str) : nat :=
  sum_list_with (λ kc, 2 ^ (D - length kc.2))%nat huffman_dic.

Lemma kraft_codes t p D :
  (∀ k c, (k, c) ∈ codes t p → (length c ≤ D)%nat) →
  kraft_sum D (codes t p) = (2 ^ (D - length p))%nat.
Proof.
  unfold kraft_sum. revert p. induction t as [k|l IHl r IHr]; intros p Hle.
  { simpl. lia. }
  simpl. rewrite sum_list_with_app, IHl, IHr.
  - rewrite !length_app. simpl.
    assert (length p + 1 ≤ D)%nat.
    { destruct (codes l (p ++ ["0"%char])) as [|[k c] cs] eqn:E.
      - pose proof (codes_length l (p ++ ["0"%char])) as Hl. rewrite E in Hl.
        pose proof (leaves_length l). simpl in Hl. lia.
      - assert ((k, c) ∈ codes l (p ++ ["0"%char])) as Hin by (rewrite E; left).
        destruct (codes_prefix _ _ _ _ Hin) as [u Hu].
        specialize (Hle k c). simpl in Hle. rewrite elem_of_app in Hle.
        specialize (Hle (or_introl Hin)). rewrite Hu, !length_app in Hle.
        simpl in Hle. lia. }
    replace (D - length p)%nat with (S (D - (length p + 1))) by lia.
    rewrite Nat.pow_succ_r'. lia.
  - intros k c Hin. apply (Hle k c). simpl. apply elem_of_app. by right.
  - intros k c Hin. apply (Hle k c). simpl. apply elem_of_app. by left.
Qed.

(** X8. The code of [Node.build] for two symbols or more is complete
    (Kraft's sum is 1): counted in words of [D] digits, for any [D] that no
    code word exceeds, the code words take all [2 ^ D] of them. *)
Theorem build_kraft (fre_dic : dict Z) (table : dict str) (D : nat) :
  NoDup (keys fre_dic) → (2 ≤ length fre_dic)%nat → build fre_dic = Ok table →
  Forall (λ kc, length kc.2 ≤ D)%nat table →
  kraft_sum D table = (2 ^ D)%nat.
Proof.
  intros Hnd Hlen Hb HD. rewrite Forall_forall in HD.
  destruct (build_spec fre_dic Hnd Hlen) as (table' & tl & tr & Hb' & Hk & Hperm & Hlv).
  rewrite Hb in Hb'. injection Hb' as <-.
  unfold kraft_sum. rewrite Hperm. fold (kraft_sum D (codes (Br tl tr) [])).
  rewrite kraft_codes; [simpl; f_equal; lia|].
  intros k c Hin. apply (HD (k, c)). by rewrite Hperm.
Qed.

Lemma build_kraft_witness :
  kraft_sum 2 [([byte_of 0x4F], str_of "1"); ([byte_of 0x56], str_of "00");
               ([byte_of 0x41], str_of "01")] = (2 ^ 2)%nat.
Proof.
  apply (build_kraft [([byte_of 0x4F], 2); ([byte_of 0x56], 1); ([byte_of 0x41], 1)]).
  - apply (bool_decide_unpack _). vm_compute. exact I.
  - simpl. lia.
  - vm_compute. reflexivity.
  - apply (bool_decide_unpack _). vm_compute. exact I.
Defined.

(** ** The dictionary [Node.decode] leaves behind *)

Lemma decode_fst str_bytes huffman_dic padding :
  (decode str_bytes huffman_dic padding).1 = decode_dict huffman_dic.
Proof.
  unfold decode. case_decide as E; [|done].
  by destruct huffman_dic.
Qed.

Lemma decode_dict_idemp huffman_dic :
  decode_dict (decode_dict huffman_dic) = decode_dict huffman_dic.
Proof.
  unfold decode_dict at 2. case_decide as E.
  - destruct huffman_dic as [|[k c] [|? ?]]; [done| |done]. cbn.
    destruct (decide (k = OVO_key)) as [->|Hk].
    + unfold decode_dict. cbn. by rewrite !decide_True.
    + rewrite (decode_dict_single k c Hk). unfold decode_dict. by rewrite decide_False.
  - done.
Qed.

Lemma decode_dict_get huffman_dic item :
  dict_get (decode_dict huffman_dic) (int_to_bytes item)
  = dict_get huffman_dic (int_to_bytes item).
Proof. unfold decode_dict. case_decide; [|done]. by apply dict_get_set_ne. Qed.

Lemma decode_of_decode_dict str_bytes huffman_dic padding :
  decode str_bytes (decode_dict huffman_dic) padding = decode str_bytes huffman_dic padding.
Proof.
  unfold decode. rewrite decode_dict_idemp.
  destruct (decide (length huffman_dic = 0%nat)) as [E|E].
  - destruct huffman_dic; [done|discriminate].
  - rewrite decide_False; [done|].
    unfold decode_dict. case_decide; [|done].
    destruct huffman_dic as [|[k c] d]; [done|]. simpl. by case_decide.
Qed.

(** X9. A call of [Node.decode] with the dictionary an earlier call has
    left behind returns what it returns with the original dictionary: the
    placeholder entry is added once and changes no later result. *)
Theorem decode_again (str_bytes str_bytes' : bytes) (huffman_dic : dict str)
    (padding padding' : Z) :
  decode str_bytes' (decode str_bytes huffman_dic padding).1 padding'
  = decode str_bytes' huffman_dic padding'.
Proof. rewrite decode_fst. apply decode_of_decode_dict. Qed.

Lemma encode_loop_ext t1 t2 data bin_buffer write_buffer :
  Forall (λ item, dict_get t1 (int_to_bytes item) = dict_get t2 (int_to_bytes item)) data →
  encode_loop (int_to_bytes <$> data) t1 bin_buffer write_buffer
  = encode_loop (int_to_bytes <$> data) t2 bin_buffer write_buffer.
Proof.
  intros Hext. revert bin_buffer write_buffer.
  induction Hext as [|item data Hitem _ IH]; intros bb wb; [done|].
  cbn [fmap list_fmap encode_loop]. unfold dict_item. rewrite Hitem.
  destruct (of_option _ _) as [code|]; [|done]. cbn [bind].
  destruct (flush _ _) as [[bb' wb']|]; [|done]. apply IH.
Qed.

(** X10. [Node.encode] looks at the entries of the bytes of its input
    only: two tables that agree on them give the same result, be it a pair
    or an exception. *)
Theorem encode_frame (t1 t2 : dict str) (data : bytes) :
  Forall (λ item, dict_get t1 (int_to_bytes item) = dict_get t2 (int_to_bytes item)) data →
  encode data t1 = encode data t2.
Proof. intros Hext. unfold encode. by rewrite (encode_loop_ext t1 t2). Qed.

Lemma encode_frame_witness :
  encode [byte_of 0x4F; byte_of 0x4F] [([byte_of 0x4F], str_of "0")]
  = encode [byte_of 0x4F; byte_of 0x4F]
      [([byte_of 0x56], str_of "1"); ([byte_of 0x4F], str_of "0")].
Proof.
  apply (encode_frame [([byte_of 0x4F], str_of "0")]
           [([byte_of 0x56], str_of "1"); ([byte_of 0x4F], str_of "0")]).
  apply (bool_decide_unpack _). vm_compute. exact I.
Defined.

(** X11. The placeholder entry [Node.decode] adds to a table of one entry
    does not change what [Node.encode] returns with that table. *)
Theorem encode_after_decode (data str_bytes : bytes) (huffman_dic : dict str) (padding : Z) :
  encode data (decode str_bytes huffman_dic padding).1 = encode data huffman_dic.
Proof.
  rewrite decode_fst. unfold encode. rewrite (encode_loop_ext _ huffman_dic); [done|].
  apply Forall_forall. intros item _. apply decode_dict_get.
Qed.

(** ** Edge cases of [Node.decode] *)

Lemma slice8_nil {A} pos : slice8 (@nil A) pos = [].
Proof. unfold slice8. by rewrite drop_nil. Qed.

Lemma slice_to_nil {A} stop : slice_to (@nil A) stop = [].
Proof. unfold slice_to. by rewrite take_nil. Qed.

(** X12. For the empty packed string [Node.decode] returns the empty byte
    string, with every table and every padding. *)
Theorem decode_nothing (huffman_dic : dict str) (padding : Z) :
  (decode [] huffman_dic padding).2 = Ok [].
Proof.
  unfold decode. case_decide as E; [done|]. cbn [snd].
  destruct (rebuild_full (decode_dict huffman_dic)) as (root & -> & _).
  { unfold decode_dict. case_decide; [|by destruct huffman_dic].
    destruct huffman_dic as [|[k c] d]; [done|]. simpl. by case_decide. }
  cbn [bind fmap list_fmap mjoin list_join]. rewrite slice_to_nil, walk_chunks_join.
  replace (mjoin (slice8 [] <$> _)) with (@nil bool); [done|].
  generalize (range8 (8 * Z.of_nat (length (@nil byte)) - padding)).
  intros l. induction l as [|pos l IH]; [done|]. cbn. by rewrite slice8_nil.
Qed.

(** ** What [Node.decode] can emit *)

Lemma decode_loop_leaves l :
  l ≠ [] →
  ∃ root, decode_loop l = Ok [root] ∧ leaves (tree_of root) ≡ₚ forest_leaves l.
Proof.
  remember (length l) as n eqn:Hn. revert l Hn.
  induction (lt_wf n) as [n _ IH]; intros l -> Hne.
  rewrite decode_loop_eq. destruct (decide (1 < length l)%nat) as [Hlen|Hlen].
  - destruct (pop_long l) as (l' & x & y & ->); [lia|].
    rewrite decode_body_app. cbn [bind].
    set (l1 := sort_by_code (l' ++ [code_parent x y])).
    assert (Hperm : l1 ≡ₚ l' ++ [code_parent x y]) by apply sort_by_code_perm.
    assert (Hlen1 : length l1 = S (length l')).
    { rewrite Hperm, length_app. simpl. lia. }
    destruct (IH (length l1)) with (l := l1) as (root & Hrun & Hlv); [|done| |].
    { rewrite Hlen1, length_app. simpl. lia. }
    { intros E. by rewrite E in Hlen1. }
    exists root. split; [done|].
    rewrite Hlv, (forest_leaves_perm _ _ Hperm), !forest_leaves_app.
    apply Permutation_app_head. unfold forest_leaves. cbn. by rewrite !app_nil_r.
  - destruct l as [|x [|y l]]; [done| |simpl in Hlen; lia].
    exists x. split; [done|]. unfold forest_leaves. cbn. by rewrite app_nil_r.
Qed.

(** The walk is inside the tree of [root] and has emitted keys only. *)
Definition emitting (root : Node str) (st : Node str * bytes) : Prop :=
  full st.1 ∧ leaves (tree_of st.1) ⊆ leaves (tree_of root) ∧
  ∃ ks, st.2 = mjoin ks ∧ Forall (λ k, k ∈ leaves (tree_of root)) ks.

Lemma walk_bit_emitting root st item st' :
  full root → emitting root st → walk_bit root st item = Ok st' → emitting root st'.
Proof.
  intros Hroot (Hfull & Hsub & ks & Hks & Hin) Hstep.
  destruct st as [cur wb]. simpl in *. subst wb.
  destruct Hfull as [k w|v w l r Hl Hr]; [by destruct item|].
  assert (∀ c, full c → leaves (tree_of c) ⊆ leaves (tree_of root) →
            (if is_leaf c then let* v := of_option (value c) TypeError in
                               Ok (root, mjoin ks ++ v)
             else Ok (c, mjoin ks)) = Ok st' → emitting root st') as Hc.
  { intros c Hcf Hcs. destruct Hcf as [k w'|v' w' l' r' Hl' Hr']; cbn.
    - intros [= <-]. split_and!; [done..|]. exists (ks ++ [k]). split.
      + rewrite join_app. cbn. by rewrite app_nil_r.
      + apply Forall_app. split; [done|]. constructor; [|done]. apply Hcs. simpl. left.
    - intros [= <-]. split_and!; [by constructor|done|by exists ks]. }
  simpl in Hsub. destruct item; cbn in Hstep.
  - apply (Hc r); [done| |done]. intros k Hk. apply Hsub, elem_of_app. by right.
  - apply (Hc l); [done| |done]. intros k Hk. apply Hsub, elem_of_app. by left.
Qed.

Lemma walk_bits_emitting root st items st' :
  full root → emitting root st → walk_bits root st items = Ok st' → emitting root st'.
Proof.
  intros Hroot. revert st. induction items as [|item items IH]; intros st Hst; simpl.
  { by intros [= <-]. }
  destruct (walk_bit root st item) as [st1|] eqn:E; [|done]. cbn [bind].
  apply IH. by eapply walk_bit_emitting.
Qed.

(** X13. Whatever the table, the packed bytes and the padding are: when
    [Node.decode] returns a byte string, it is a concatenation of keys of
    the table as the call leaves it (the keys given, and the placeholder
    when one entry was given). *)
Theorem decode_emits_keys (str_bytes : bytes) (huffman_dic : dict str) (padding : Z)
    (write_buffer : bytes) :
  (decode str_bytes huffman_dic padding).2 = Ok write_buffer →
  ∃ ks, write_buffer = mjoin ks ∧
    Forall (λ k, k ∈ keys (decode str_bytes huffman_dic padding).1) ks.
Proof.
  rewrite decode_fst. unfold decode. case_decide as E.
  { intros [= <-]. by exists []. }
  cbn [snd]. unfold rebuild.
  set (l := sort_by_code (leaf_node <$> decode_dict huffman_dic)).
  assert (Hperm : l ≡ₚ leaf_node <$> decode_dict huffman_dic) by apply sort_by_code_perm.
  assert (Hne : l ≠ []).
  { intros El. rewrite El in Hperm. apply Permutation_nil, fmap_nil_inv in Hperm.
    revert Hperm. unfold decode_dict. case_decide; [|by destruct huffman_dic].
    destruct huffman_dic as [|[k c] d]; [done|]. simpl. by case_decide. }
  destruct (decode_loop_leaves l Hne) as (root & Hrun & Hlv).
  destruct (decode_loop_full l Hne) as (root' & Hrun' & Hfull & _).
  { rewrite Hperm. apply Forall_fmap, Forall_true. intros [k w]. constructor. }
  rewrite Hrun in Hrun'. injection Hrun' as <-. rewrite Hrun.
  cbn [bind list_item lookup list_lookup of_option].
  rewrite (forest_leaves_perm _ _ Hperm), forest_leaves_leaf_nodes in Hlv.
  rewrite walk_chunks_join.
  destruct (walk_bits root (root, []) _) as [[cur wb]|] eqn:Hwalk; [|done].
  cbn [bind]. intros [= <-].
  apply walk_bits_emitting in Hwalk as (_ & _ & ks & Hks & Hin); [|done|].
  - exists ks. split; [done|]. eapply Forall_impl; [exact Hin|].
    intros k Hk. by rewrite <-Hlv.
  - split_and!; [done..|]. by exists [].
Qed.

Lemma decode_emits_keys_witness :
  ∃ ks, [byte_of 0x4F; byte_of 0x56; byte_of 0x4F] = mjoin ks ∧
    Forall (λ k, k ∈ keys (decode [byte_of 0x40]
                            [([byte_of 0x4F], str_of "0"); ([byte_of 0x56], str_of "1")]
                            5).1) ks.
Proof.
  apply (decode_emits_keys [byte_of 0x40]
           [([byte_of 0x4F], str_of "0"); ([byte_of 0x56], str_of "1")] 5).
  vm_compute. reflexivity.
Defined.

(** ** Streams that stop inside a code word *)

(** Decoding packed bytes whose bits, without the padding, are [bits]. *)
Lemma decode_bits huffman_dic bits packed padding :
  huffman_dic ≠ [] → 0 ≤ padding →
  unpack packed = bits ++ replicate (Z.to_nat padding) false →
  decode packed huffman_dic padding
  = (decode_dict huffman_dic,
     let* current := rebuild (decode_dict huffman_dic) in
     let* (_, write_buffer) := walk_bits current (current, []) bits in
     Ok write_buffer).
Proof.
  intros Hne Hpad Hbits. unfold decode.
  rewrite decide_False by by destruct huffman_dic.
  f_equal. destruct (rebuild (decode_dict huffman_dic)) as [root|]; [|done].
  cbn [bind]. fold (unpack packed). rewrite Hbits.
  assert (Hsize : 8 * Z.of_nat (length packed) - padding = Z.of_nat (length bits)).
  { apply (f_equal length) in Hbits.
    rewrite length_unpack, length_app, length_replicate in Hbits. lia. }
  rewrite Hsize, slice_to_app, walk_chunks_join, join_range8. done.
Qed.

(** The bits of a proper beginning of a code word move the walk down the
    tree and emit nothing. *)
Lemma walk_prefix root n t p k u v write_buffer :
  shape n t → (k, p ++ u ++ v) ∈ codes t p → v ≠ [] →
  ∃ n', walk_bits root (n, write_buffer) (bits_of u) = Ok (n', write_buffer).
Proof.
  intros Hs. revert p u.
  induction Hs as [k' w|v' w l r tl tr Hl IHl Hr IHr]; intros p u Hin Hv.
  { apply list_elem_of_singleton in Hin. injection Hin as _ Hp.
    rewrite <-(app_nil_r p) in Hp at 2. apply app_inv_head in Hp.
    by apply app_eq_nil in Hp as [_ ->]. }
  destruct u as [|ch u]; [by eexists|].
  assert (∀ c tc (side : ascii),
            shape c tc →
            (if bool_decide (side = "1"%char) then rchild (mkNode v' w (Some l) (Some r))
             else lchild (mkNode v' w (Some l) (Some r))) = Some c →
            (∀ u', (k, (p ++ [side]) ++ u' ++ v) ∈ codes tc (p ++ [side]) →
                   ∃ n', walk_bits root (c, write_buffer) (bits_of u')
                         = Ok (n', write_buffer)) →
            (k, p ++ (ch :: u) ++ v) ∈ codes tc (p ++ [side]) →
            ∃ n', walk_bits root (mkNode v' w (Some l) (Some r), write_buffer)
                    (bits_of (ch :: u)) = Ok (n', write_buffer)) as Hside.
  { intros c tc side Hc Hchild IH Hin'.
    destruct (codes_prefix _ _ _ _ Hin') as [x Hx].
    rewrite <-app_assoc in Hx. apply app_inv_head in Hx. cbn in Hx.
    injection Hx as -> Hx.
    assert ((k, (p ++ [side]) ++ u ++ v) ∈ codes tc (p ++ [side])) as Hin''.
    { by rewrite <-app_assoc. }
    change (bits_of (side :: u)) with (bool_decide (side = "1"%char) :: bits_of u).
    cbn [walk_bits walk_bit]. rewrite Hchild. cbn [of_option bind].
    destruct Hc as [k1 w1|v1 w1 l1 r1 tl1 tr1 Hl1 Hr1].
    - apply list_elem_of_singleton in Hin''. injection Hin'' as _ Hp.
      rewrite <-(app_nil_r (p ++ [side])) in Hp at 2. apply app_inv_head in Hp.
      by apply app_eq_nil in Hp as [_ ->].
    - cbn [is_leaf lchild rchild bind]. by apply IH. }
  simpl in Hin. apply elem_of_app in Hin as [Hin|Hin].
  - apply (Hside l tl "0"%char); [done|done| |done].
    intros u' Hu'. by apply (IHl (p ++ ["0"%char])).
  - apply (Hside r tr "1"%char); [done|done| |done].
    intros u' Hu'. by apply (IHr (p ++ ["1"%char])).
Qed.

(** X14. [Node.decode] does not notice a stream that stops inside a code
    word: with the table of a code tree, when the bits before the padding
    are the code words of [data] followed by a proper beginning [u] of a
    code word, the call returns [data] and raises nothing. *)
Theorem decode_truncated (huffman_dic : dict str) (tl tr : tree) (data packed : bytes)
    (padding : Z) (k : bytes) (u v : str) :
  huffman_dic ≡ₚ codes (Br tl tr) [] → covered huffman_dic data →
  (k, u ++ v) ∈ huffman_dic → v ≠ [] → 0 ≤ padding →
  unpack packed
  = (bits_of (stream huffman_dic data) ++ bits_of u)
    ++ replicate (Z.to_nat padding) false →
  decode packed huffman_dic padding = (huffman_dic, Ok data).
Proof.
  intros Hperm Hcov Hin Hv Hpad Hbits.
  assert (Hlen : (2 ≤ length huffman_dic)%nat).
  { rewrite Hperm. simpl. rewrite length_app, !codes_length.
    pose proof (leaves_length tl). pose proof (leaves_length tr). lia. }
  assert (Hne : huffman_dic ≠ []) by (intros ->; simpl in Hlen; lia).
  rewrite (decode_bits huffman_dic _ packed padding Hne Hpad Hbits).
  assert (Hdict : decode_dict huffman_dic = huffman_dic).
  { unfold decode_dict. rewrite decide_False; [done|lia]. }
  rewrite Hdict. f_equal.
  destruct (rebuild_shape huffman_dic (Br tl tr) Hperm) as (root & -> & Hshape).
  cbn [bind]. rewrite walk_bits_app.
  rewrite (walk_stream root huffman_dic tl tr) by (done || by apply covered_coded_by).
  cbn [bind app]. rewrite Hperm in Hin.
  destruct (walk_prefix root root (Br tl tr) [] k u v data Hshape Hin Hv) as [n' ->].
  done.
Qed.

Lemma decode_truncated_witness :
  decode [byte_of 0x80]
    [([byte_of 0x43], str_of "1"); ([byte_of 0x41], str_of "00");
     ([byte_of 0x42], str_of "01")] 6
  = ([([byte_of 0x43], str_of "1"); ([byte_of 0x41], str_of "00");
      ([byte_of 0x42], str_of "01")], Ok [byte_of 0x43]).
Proof.
  apply (decode_truncated _
           (Br (Leaf [byte_of 0x41]) (Leaf [byte_of 0x42])) (Leaf [byte_of 0x43])
           [byte_of 0x43] [byte_of 0x80] 6 [byte_of 0x41] (str_of "0") (str_of "0")).
  - simpl. apply (Permutation_cons_append [_; _]).
  - unfold covered. apply (bool_decide_unpack _). vm_compute. exact I.
  - apply (bool_decide_unpack _). vm_compute. exact I.
  - done.
  - lia.
  - vm_compute. reflexivity.
Defined.

(** ** The forest of [Node.build] stays sorted *)

(** Heavier nodes first. *)
Definition sorted_desc (l : list (Node Z)) : Prop :=
  StronglySorted (λ n1 n2, weight n2 ≤ weight n1) l.

Lemma adjust_sorted_spec i x rest y :
  (i ≤ length rest)%nat → Forall (λ z, weight z ≤ weight x) (drop i rest) →
  ∃ j, adjust i x (take i rest ++ y :: drop i rest)
       = Ok (take j rest ++ x :: drop j rest) ∧
       Forall (λ z, weight z ≤ weight x) (drop j rest) ∧
       match j with
       | O => True
       | S j' => ∃ z, rest !! j' = Some z ∧ weight x < weight z
       end.
Proof.
  revert y. induction i as [|i IH]; intros y Hi Hdrop.
  { exists 0%nat. rewrite take_0, drop_0 in *. cbn. unfold list_assign.
    rewrite decide_True by (simpl; lia). done. }
  destruct (lookup_lt_is_Some_2 rest i) as [prev Hprev]; [lia|].
  assert (Hlen : length (take (S i) rest) = S i) by (rewrite length_take; lia).
  cbn [adjust]. unfold list_item.
  rewrite lookup_app_l by lia. rewrite lookup_take_lt by lia. rewrite Hprev.
  cbn [of_option bind].
  assert (Hassign : ∀ z, list_assign (take (S i) rest ++ y :: drop (S i) rest) (S i) z
                         = Ok (take (S i) rest ++ z :: drop (S i) rest)).
  { intros z. unfold list_assign. rewrite decide_True.
    - f_equal. rewrite insert_app_r_alt by lia. by rewrite Hlen, Nat.sub_diag.
    - rewrite length_app, Hlen. simpl. lia. }
  rewrite !Hassign. destruct (Z.leb_spec (weight prev) (weight x)) as [Hle|Hgt].
  - cbn [bind]. rewrite (take_S_r _ _ _ Hprev), <-app_assoc. cbn [app].
    rewrite <-(drop_S _ _ _ Hprev). apply IH; [lia|].
    rewrite (drop_S _ _ _ Hprev). by constructor.
  - exists (S i). split_and!; [done..|]. by exists prev.
Qed.

Lemma sorted_desc_insert rest x j :
  sorted_desc rest →
  Forall (λ z, weight z ≤ weight x) (drop j rest) →
  match j with
  | O => True
  | S j' => ∃ z, rest !! j' = Some z ∧ weight x < weight z
  end →
  sorted_desc (take j rest ++ x :: drop j rest).
Proof.
  unfold sorted_desc. intros Hs Hdrop Hj.
  rewrite <-(take_drop j rest) in Hs. apply StronglySorted_app in Hs as (Hcross & Ht & Hd).
  apply StronglySorted_app. split_and!; [|done|by constructor].
  intros a c Ha Hc. apply elem_of_cons in Hc as [->|Hc]; [|by apply Hcross].
  destruct j as [|j]; [by apply elem_of_nil in Ha|].
  destruct Hj as (z & Hz & Hlt).
  rewrite (take_S_r _ _ _ Hz) in Ha, Ht.
  apply elem_of_app in Ha as [Ha|Ha%list_elem_of_singleton]; [|subst; lia].
  apply StronglySorted_app in Ht as (Hcross' & _ & _).
  specialize (Hcross' a z Ha). rewrite list_elem_of_singleton in Hcross'.
  specialize (Hcross' eq_refl). simpl in Hcross'. lia.
Qed.

(** X15. When the forest of [Node.build] is sorted with the heavier trees
    first, a round of the merging loop pops the two lightest trees, puts
    their parent (whose weight is the sum of theirs) back, and leaves the
    forest sorted. *)
Theorem build_round_sorted (node_lst : list (Node Z)) :
  sorted_desc node_lst → (2 ≤ length node_lst)%nat →
  ∃ rest node_1 node_2 node_lst',
    node_lst = rest ++ [node_1; node_2] ∧
    Forall (λ z, weight node_2 ≤ weight node_1 ≤ weight z) rest ∧
    build_body node_lst = Ok node_lst' ∧
    node_lst' ≡ₚ rest ++ [weight_parent node_1 node_2] ∧
    sorted_desc node_lst'.
Proof.
  intros Hs Hlen. destruct (pop_long node_lst Hlen) as (rest & x & y & ->).
  exists rest, x, y.
  pose proof Hs as Hs'. unfold sorted_desc in Hs'.
  apply StronglySorted_app in Hs' as (Hcross & Hrest & Hxy).
  apply StronglySorted_inv in Hxy as [_ Hxy]. apply Forall_cons in Hxy as [Hxy _].
  set (p := weight_parent x y).
  destruct (adjust_sorted_spec (length rest) p rest p) as (j & Hadj & Hdrop & Hj).
  { done. } { by rewrite drop_ge. }
  rewrite take_ge, drop_ge in Hadj by done.
  exists (take j rest ++ p :: drop j rest). split_and!.
  - done.
  - apply Forall_forall. intros z Hz. split; [done|]. apply (Hcross z x Hz). left.
  - unfold build_body.
    replace (rest ++ [x; y]) with ((rest ++ [x]) ++ [y]) by by rewrite <-app_assoc.
    rewrite pop_app. cbn [bind]. rewrite pop_app. cbn [bind].
    fold (weight_parent x y). fold p. rewrite length_app. cbn [length].
    by replace (length rest + 1 - 1)%nat with (length rest) by lia.
  - rewrite <-(take_drop j rest) at 3. rewrite <-app_assoc.
    apply Permutation_app_head. apply Permutation_cons_append.
  - by apply sorted_desc_insert.
Qed.

Lemma build_round_sorted_witness :
  ∃ rest node_1 node_2 node_lst',
    sort_by_weight (leaf_node <$> [([byte_of 0x4F], 2); ([byte_of 0x56], 1);
                                   ([byte_of 0x41], 1)])
    = rest ++ [node_1; node_2] ∧
    Forall (λ z, weight node_2 ≤ weight node_1 ≤ weight z) rest ∧
    build_body (sort_by_weight (leaf_node <$> [([byte_of 0x4F], 2); ([byte_of 0x56], 1);
                                               ([byte_of 0x41], 1)]))
    = Ok node_lst' ∧
    node_lst' ≡ₚ rest ++ [weight_parent node_1 node_2] ∧
    sorted_desc node_lst'.
Proof.
  apply (build_round_sorted
           (sort_by_weight (leaf_node <$> [([byte_of 0x4F], 2); ([byte_of 0x56], 1);
                                           ([byte_of 0x41], 1)]))).
  - unfold sorted_desc. apply (bool_decide_unpack _). vm_compute. exact I.
  - vm_compute. lia.
Defined.
